(** * InstaGeo [instageo/model/run.py]: segmentation metrics and no-data masking

    A shallow embedding of [PrithviSegmentationModule.compute_metrics] and of
    the no-data masking that the [sliding_inference] branch of [main] applies
    to a stitched prediction, followed by the properties proved about them.
    The file also embeds [check_required_flags], the two collate functions,
    [log_metrics] with the three steps that call it, and [compute_mean_std].

    Conventions of the embedding.
    - A tensor or ndarray is a record of its shape and of its elements in
      row-major order; a one-dimensional array is used as a plain list.
    - Labels are integer-valued; labels and pixel counts are [Z].  Counts
      are [int64] in the source; they are bounded by the number of elements
      of an array held in memory, so the 64-bit wrap-around is never reached
      and is not written out.
    - A [float64] result is the exact rational it approximates, or one of the
      three special values.  Rounding is not modelled: a quotient [a / b] of
      two counts is the rational [a / b], kept in lowest terms so that equal
      values are equal terms.
    - A call that may raise returns an [option] ([compute_metrics], the
      masking) or an [outcome] that names the exception. *)

From Stdlib Require Import String Ascii DecimalString DecimalNat.
From Stdlib Require Import ZArith QArith List Bool Lia Sorted Permutation.
Import ListNotations.
Open Scope Z_scope.

(* ------------------------------------------------------------------ *)
(** ** Values and arrays *)

Inductive float64 : Type :=
| Finite (q : Q)
| PosInf
| NegInf
| NaN.

Record ndarray (A : Type) : Type := mk_ndarray {
  shape : list nat;
  data : list A
}.

Arguments mk_ndarray {A} shape data.
Arguments shape {A} n.
Arguments data {A} n.

Definition numel (s : list nat) : nat := fold_right Nat.mul 1%nat s.

Definition well_shaped {A} (t : ndarray A) : Prop :=
  length (data t) = numel (shape t).

Notation "x <- c ;; k" :=
  (match c with Some x => k | None => None end)
  (at level 61, c at next level, right associativity).

Fixpoint map2 {A B C} (f : A -> B -> C) (l : list A) (m : list B) : list C :=
  match l, m with
  | a :: l', b :: m' => f a b :: map2 f l' m'
  | _, _ => []
  end.

Definition list_nat_eqb (s t : list nat) : bool :=
  if list_eq_dec Nat.eq_dec s t then true else false.

(* ------------------------------------------------------------------ *)
(** ** The numpy operations the source calls *)

Module np.

(** [a / b] on two integer scalars: numpy's true division, which returns
    a float and signals a zero divisor by a special value, not by
    raising. *)
Definition true_divide (a b : Z) : float64 :=
  if b =? 0 then
    if a =? 0 then NaN else if 0 <? a then PosInf else NegInf
  else Finite (Qred (inject_Z a / inject_Z b)).

(** [np.sum] of a boolean array: the number of [True] entries. *)
Definition sum (m : list bool) : Z :=
  fold_right (fun b n => Z.b2z b + n) 0 m.

Definition any (m : list bool) : bool := existsb (fun b => b) m.

(** Elementwise operations on two arrays of one length, which is what the
    source applies them to. *)
Definition logical_and : list bool -> list bool -> list bool := map2 andb.
Definition logical_or : list bool -> list bool -> list bool := map2 orb.

(** [arr == scalar], and [arr == arr] on integer arrays of one length. *)
Definition eq_scalar (arr : list Z) (c : Z) : list bool :=
  map (fun x => x =? c) arr.
Definition eq_array (a b : list Z) : list bool := map2 Z.eqb a b.

Definition concatenate (a b : list Z) : list Z := a ++ b.

(** [np.unique]: the distinct elements, in ascending order. *)
Fixpoint insert (x : Z) (l : list Z) : list Z :=
  match l with
  | [] => [x]
  | y :: t =>
      if x <? y then x :: l
      else if x =? y then l
      else y :: insert x t
  end.

Definition unique (arr : list Z) : list Z := fold_right insert [] arr.

(** Float addition and [np.mean] of a non-empty Python list of floats
    (the sum of the entries over their number); the mean of no entries
    is [nan]. *)
Definition add (x y : float64) : float64 :=
  match x, y with
  | NaN, _ | _, NaN => NaN
  | Finite a, Finite b => Finite (Qred (a + b))
  | PosInf, NegInf | NegInf, PosInf => NaN
  | PosInf, _ | _, PosInf => PosInf
  | NegInf, _ | _, NegInf => NegInf
  end.

Definition over_count (s : float64) (n : nat) : float64 :=
  match s with
  | Finite a => Finite (Qred (a / inject_Z (Z.of_nat n)))
  | other => other
  end.

Definition mean (l : list float64) : float64 :=
  match l with
  | [] => NaN
  | _ => over_count (fold_left add l (Finite 0)) (length l)
  end.

(** Float comparison [x == y]: [nan] equals nothing, itself included. *)
Definition eq_float (x y : float64) : bool :=
  match x, y with
  | Finite a, Finite b => Qeq_bool a b
  | PosInf, PosInf | NegInf, NegInf => true
  | _, _ => false
  end.

(** [np.any(m, axis=0)] on an array of shape [(C, ...)]: entry [j] of the
    result is the disjunction of the entries [c * P + j] for [c < C],
    where [P] is the number of elements of one slice along axis 0.
    An array without a leading axis has no axis 0. *)
Definition any_axis0 (m : ndarray bool) : option (ndarray bool) :=
  match shape m with
  | [] => None
  | C :: rest =>
      let P := numel rest in
      Some (mk_ndarray rest
              (map (fun j =>
                      existsb (fun c => nth (c * P + j) (data m) false)
                              (seq 0 C))
                   (seq 0 P)))
  end.

(** [m.astype(int)] on a boolean array. *)
Definition astype_int (m : ndarray bool) : ndarray Z :=
  mk_ndarray (shape m) (map Z.b2z (data m)).

(** [np.where(cond, x, arr)] for a scalar [x] and [cond], [arr] of one
    shape.  Shapes that differ are rejected: the cases where numpy would
    broadcast them are outside this embedding. *)
Definition where_scalar (cond : ndarray bool) (x : float64)
           (arr : ndarray float64) : option (ndarray float64) :=
  if list_nat_eqb (shape cond) (shape arr) then
    Some (mk_ndarray (shape arr)
            (map2 (fun (b : bool) v => if b then x else v)
                  (data cond) (data arr)))
  else None.

End np.

(* ------------------------------------------------------------------ *)
(** ** The torch operations the source calls *)

Module torch.

(** Index of the first maximal value among [get 0 .. get (C-1)],
    for [C > 0]. *)
Definition first_argmax (get : nat -> Q) (C : nat) : Z :=
  fst (fold_left
         (fun (best : Z * Q) c =>
            if Qle_bool (get c) (snd best) then best
            else (Z.of_nat c, get c))
         (seq 1 (C - 1)) (0, get 0%nat)).

(** [torch.argmax(t, dim=1)] on a tensor of shape [(N, C, ...)]: the
    result has shape [(N, ...)] and holds, for each sample and each
    position, the index of the first maximal channel.  It raises when
    there is no axis 1 or when that axis is empty. *)
Definition argmax_dim1 (t : ndarray Q) : option (ndarray Z) :=
  match shape t with
  | N :: C :: rest =>
      if (C =? 0)%nat then None
      else
        let P := numel rest in
        Some (mk_ndarray (N :: rest)
                (flat_map
                   (fun n =>
                      map (fun j =>
                             first_argmax
                               (fun c => nth ((n * C + c) * P + j)
                                             (data t) 0%Q) C)
                          (seq 0 P))
                   (seq 0 N)))
  | _ => None
  end.

(** [t.ne(scalar)]. *)
Definition ne (t : ndarray Z) (v : Z) : ndarray bool :=
  mk_ndarray (shape t) (map (fun x => negb (x =? v)) (data t)).

Fixpoint select {A} (l : list A) (m : list bool) : list A :=
  match l, m with
  | a :: l', b :: m' => if b then a :: select l' m' else select l' m'
  | _, _ => []
  end.

(** [t.masked_select(mask)] for a mask of the shape of [t]: the selected
    elements as a one-dimensional array, in row-major order.  Shapes
    that differ are rejected: torch raises unless they broadcast, and
    the broadcasting cases are outside this embedding. *)
Definition masked_select {A} (t : ndarray A) (mask : ndarray bool)
  : option (list A) :=
  if list_nat_eqb (shape t) (shape mask) then Some (select (data t) (data mask))
  else None.

End torch.

(* ------------------------------------------------------------------ *)
(** ** [PrithviSegmentationModule.compute_metrics] *)

(** The attributes of the module that matter here.  [num_classes] is the
    class count the network is built with; [compute_metrics] reads only
    [ignore_index]. *)
Record PrithviSegmentationModule : Type := {
  num_classes : Z;
  ignore_index : Z
}.

(** The dictionary [compute_metrics] returns. *)
Record metrics : Type := mk_metrics {
  iou : float64;
  acc : float64;
  acc_per_class : list float64;
  iou_per_class : list float64;
  precision_per_class : list float64;
  recall_per_class : list float64
}.

(** The four lists the loop appends to. *)
Record per_class : Type := mk_per_class {
  pc_iou : list float64;
  pc_accuracy : list float64;
  pc_precision : list float64;
  pc_recall : list float64
}.

Section OneDimensional.
(** [pred_mask] and [gt_mask] after [masked_select]: one-dimensional. *)
Variables pred_mask gt_mask : list Z.

Definition pred_cls (clas : Z) : list bool := np.eq_scalar pred_mask clas.
Definition gt_cls (clas : Z) : list bool := np.eq_scalar gt_mask clas.
Definition intersection (clas : Z) : list bool :=
  np.logical_and (pred_cls clas) (gt_cls clas).
Definition union (clas : Z) : list bool :=
  np.logical_or (pred_cls clas) (gt_cls clas).

Definition true_positive (clas : Z) : Z := np.sum (intersection clas).
Definition false_positive (clas : Z) : Z :=
  np.sum (pred_cls clas) - true_positive clas.
Definition false_negative (clas : Z) : Z :=
  np.sum (gt_cls clas) - true_positive clas.

Definition class_iou (clas : Z) : float64 :=
  np.true_divide (np.sum (intersection clas)) (np.sum (union clas)).

Definition class_accuracy (clas : Z) : float64 :=
  if 0 <? np.sum (gt_cls clas)
  then np.true_divide (true_positive clas) (np.sum (gt_cls clas))
  else Finite 0.

Definition class_precision (clas : Z) : float64 :=
  if 0 <? true_positive clas + false_positive clas
  then np.true_divide (true_positive clas)
                      (true_positive clas + false_positive clas)
  else Finite 0.

Definition class_recall (clas : Z) : float64 :=
  if 0 <? true_positive clas + false_negative clas
  then np.true_divide (true_positive clas)
                      (true_positive clas + false_negative clas)
  else Finite 0.

(** One iteration of [for clas in classes]. *)
Definition loop_body (st : per_class) (clas : Z) : per_class :=
  mk_per_class
    (if np.any (union clas) then pc_iou st ++ [class_iou clas]
     else pc_iou st)
    (pc_accuracy st ++ [class_accuracy clas])
    (pc_precision st ++ [class_precision clas])
    (pc_recall st ++ [class_recall clas]).

Definition classes : list Z :=
  np.unique (np.concatenate gt_mask pred_mask).

Definition class_loop : per_class :=
  fold_left loop_body classes (mk_per_class [] [] [] []).

Definition mean_iou : float64 :=
  match pc_iou class_loop with
  | [] => Finite 0
  | l => np.mean l
  end.

Definition overall_accuracy : float64 :=
  np.true_divide (np.sum (np.eq_array pred_mask gt_mask))
                 (Z.of_nat (length gt_mask)).

(** Lines 240-288 of the source, on the two selected arrays. *)
Definition metrics_of_selected : metrics :=
  mk_metrics mean_iou overall_accuracy
             (pc_accuracy class_loop) (pc_iou class_loop)
             (pc_precision class_loop) (pc_recall class_loop).
End OneDimensional.

(** Lines 237-239: the pixels whose ground truth is not the ignore value,
    taken from both masks. *)
Definition no_ignore (self : PrithviSegmentationModule) (gt_mask : ndarray Z)
  : ndarray bool := torch.ne gt_mask (ignore_index self).

Definition selected_pred (self : PrithviSegmentationModule)
           (pred_mask gt_mask : ndarray Z) : option (list Z) :=
  torch.masked_select pred_mask (no_ignore self gt_mask).

Definition selected_gt (self : PrithviSegmentationModule)
           (gt_mask : ndarray Z) : option (list Z) :=
  torch.masked_select gt_mask (no_ignore self gt_mask).

(** Lines 237-288: [compute_metrics] from the class mask that the argmax
    of its first line produces.  [None] stands for a call that does not
    return a report (the masks do not have one shape). *)
Definition metrics_of_class_mask (self : PrithviSegmentationModule)
           (pred_mask gt_mask : ndarray Z) : option metrics :=
  pred <- selected_pred self pred_mask gt_mask ;;
  gt <- selected_gt self gt_mask ;;
  Some (metrics_of_selected pred gt).

(** The whole method: [pred_mask] holds the class scores, of shape
    [(N, C, H, W)], and [gt_mask] the labels, of shape [(N, H, W)]. *)
Definition compute_metrics (self : PrithviSegmentationModule)
           (pred_mask : ndarray Q) (gt_mask : ndarray Z) : option metrics :=
  pred_mask <- torch.argmax_dim1 pred_mask ;;
  metrics_of_class_mask self pred_mask gt_mask.

(** The class universe of a call. *)
Definition class_universe (self : PrithviSegmentationModule)
           (pred_mask gt_mask : ndarray Z) : option (list Z) :=
  pred <- selected_pred self pred_mask gt_mask ;;
  gt <- selected_gt self gt_mask ;;
  Some (classes pred gt).

(* ------------------------------------------------------------------ *)
(** ** [main], mode [sliding_inference]: masking the no-data pixels *)

(** Lines 505-506: the pixels at which some channel of the loaded tile,
    of shape [(C, H, W)], compares equal to the no-data value. *)
Definition nan_mask (no_data_value : float64) (hls_tile : ndarray float64)
  : option (ndarray Z) :=
  let nan_mask :=
    mk_ndarray (shape hls_tile)
               (map (fun v => np.eq_float v no_data_value) (data hls_tile)) in
  nan_mask <- np.any_axis0 nan_mask ;;
  Some (np.astype_int nan_mask).

(** Line 523, on the surface [sliding_window_inference] returned. *)
Definition mask_prediction (nan_mask : ndarray Z)
           (prediction : ndarray float64) : option (ndarray float64) :=
  np.where_scalar
    (mk_ndarray (shape nan_mask) (map (fun x => x =? 1) (data nan_mask)))
    NaN prediction.

Definition written_prediction (no_data_value : float64)
           (hls_tile prediction : ndarray float64)
  : option (ndarray float64) :=
  nan_mask <- nan_mask no_data_value hls_tile ;;
  mask_prediction nan_mask prediction.

(** Element [(ch, r, c)] of a [(C, H, W)] array and element [(r, c)] of an
    [(H, W)] array, [None] outside the stored data. *)
Definition at3 {A} (t : ndarray A) (H W ch r c : nat) : option A :=
  nth_error (data t) ((ch * H + r) * W + c).
Definition at2 {A} (t : ndarray A) (W r c : nat) : option A :=
  nth_error (data t) (r * W + c).

(* ------------------------------------------------------------------ *)
(** ** Concrete calls used below *)

(** A module built with the constructor's defaults. *)
Definition default_module : PrithviSegmentationModule :=
  {| num_classes := 2; ignore_index := -100 |}.

(** One sample of two pixels: ground truth [0 0], prediction [0 1].
    Class 1 is predicted and has no ground-truth pixel. *)
Definition unseen_class_gt : ndarray Z := mk_ndarray [1; 1; 2]%nat [0; 0].
Definition unseen_class_pred : ndarray Z := mk_ndarray [1; 1; 2]%nat [0; 1].
Definition unseen_class_report : metrics :=
  mk_metrics (Finite (1 # 4)) (Finite (1 # 2))
             [Finite (1 # 2); Finite 0] [Finite (1 # 2); Finite 0]
             [Finite 1; Finite 0] [Finite (1 # 2); Finite 0].

(** The specification's scenario: ground truth [[0,0],[1,1]], prediction
    [[0,1],[1,1]], as masks and as one batch with its class scores. *)
Definition scenario_gt : ndarray Z := mk_ndarray [2; 2]%nat [0; 0; 1; 1].
Definition scenario_pred : ndarray Z := mk_ndarray [2; 2]%nat [0; 1; 1; 1].
Definition scenario_labels : ndarray Z :=
  mk_ndarray [1; 2; 2]%nat [0; 0; 1; 1].
Definition scenario_scores : ndarray Q :=
  mk_ndarray [1; 2; 2; 2]%nat [1; 0; 0; 0;  0; 1; 1; 1]%Q.
Definition scenario_class_mask : ndarray Z :=
  mk_ndarray [1; 2; 2]%nat [0; 1; 1; 1].
Definition scenario_report : metrics :=
  mk_metrics (Finite (7 # 12)) (Finite (3 # 4))
             [Finite (1 # 2); Finite 1] [Finite (1 # 2); Finite (2 # 3)]
             [Finite 1; Finite (2 # 3)] [Finite (1 # 2); Finite 1].

(** One batch in which every label is the ignore value. *)
Definition ignored_labels : ndarray Z :=
  mk_ndarray [1; 2; 2]%nat [-100; -100; -100; -100].

(** Three pixels of class 0 and one of class 1, all predicted as 0. *)
Definition skewed_gt : ndarray Z := mk_ndarray [1; 2; 2]%nat [0; 0; 0; 1].
Definition skewed_pred : ndarray Z := mk_ndarray [1; 2; 2]%nat [0; 0; 0; 0].

(** A ground truth with an ignored pixel and a label above the
    configured class count. *)
Definition partly_ignored_gt : ndarray Z :=
  mk_ndarray [1; 2; 2]%nat [0; -100; 5; 1].
Definition partly_ignored_pred : ndarray Z :=
  mk_ndarray [1; 2; 2]%nat [0; 1; 1; 1].

(** A tile of two channels, one row and two columns, whose first channel
    is the no-data value -9999 at the second pixel, and a stitched
    prediction for it. *)
Definition example_no_data : float64 := Finite (-9999).
Definition example_tile : ndarray float64 :=
  mk_ndarray [2; 1; 2]%nat
             [Finite 1; Finite (-9999);  Finite 3; Finite 4].
Definition example_prediction : ndarray float64 :=
  mk_ndarray [1; 2]%nat [Finite 0; Finite 1].

(* ------------------------------------------------------------------ *)
(** ** Statements that follow the specification's words *)

(** The pixels that are evaluated (ground truth not ignored), as pairs of
    prediction and ground truth, and those of them that are correct. *)
Definition evaluated_pixels (ignore_value : Z) (pred gt : list Z)
  : list (Z * Z) :=
  filter (fun pg => negb (snd pg =? ignore_value)) (combine pred gt).

Definition correct_pixels (ignore_value : Z) (pred gt : list Z)
  : list (Z * Z) :=
  filter (fun pg => fst pg =? snd pg) (evaluated_pixels ignore_value pred gt).

(** The mean IoU as the specification words it: the classes without a
    ground-truth pixel are left out of the average. *)
Definition spec_mean_iou (pred gt : list Z) : float64 :=
  match filter (fun c => 0 <? np.sum (gt_cls gt c)) (classes pred gt) with
  | [] => Finite 0
  | cs => np.mean (map (class_iou pred gt) cs)
  end.

(** C1, the claim as the specification states it, for one call: a class
    without a ground-truth pixel that is predicted is left out of the
    mean IoU, and its accuracy entry is zero. *)
Definition zero_ground_truth_class_excluded
           (self : PrithviSegmentationModule) (pred_mask gt_mask : ndarray Z)
  : Prop :=
  forall out sp sg c i,
    metrics_of_class_mask self pred_mask gt_mask = Some out ->
    selected_pred self pred_mask gt_mask = Some sp ->
    selected_gt self gt_mask = Some sg ->
    np.sum (gt_cls sg c) = 0 -> In c sp ->
    nth_error (classes sp sg) i = Some c ->
    iou out = spec_mean_iou sp sg /\
    nth_error (acc_per_class out) i = Some (Finite 0).

(** Whether a label is evaluated: the entries of [no_ignore]. *)
Definition kept (self : PrithviSegmentationModule) (g : Z) : bool :=
  negb (g =? ignore_index self).

(** Whether some channel of a tile of shape [(C, H, W)] compares equal to
    the no-data value at the pixel of flat index [j]: the entries of the
    mask computed on lines 505-506. *)
Definition no_data_at (no_data_value : float64) (hls_tile : ndarray float64)
           (C H W j : nat) : bool :=
  existsb
    (fun ch =>
       nth (ch * (H * W) + j)
           (map (fun v => np.eq_float v no_data_value) (data hls_tile))
           false)
    (seq 0 C).

(** The values that the prediction or the ground truth takes at an
    evaluated pixel: the classes present in a call. *)
Definition evaluated_values (ignore_value : Z) (pred gt : list Z) : list Z :=
  map fst (evaluated_pixels ignore_value pred gt)
  ++ map snd (evaluated_pixels ignore_value pred gt).

(** The number of evaluated pixels predicted as [c] (true positives plus
    false positives) and the number whose ground truth is [c] (true
    positives plus false negatives). *)
Definition predicted_count (ignore_value : Z) (pred gt : list Z) (c : Z) : Z :=
  Z.of_nat (length (filter (fun pg => fst pg =? c)
                           (evaluated_pixels ignore_value pred gt))).

Definition labelled_count (ignore_value : Z) (pred gt : list Z) (c : Z) : Z :=
  Z.of_nat (length (filter (fun pg => snd pg =? c)
                           (evaluated_pixels ignore_value pred gt))).

(** Two floats that are equal: the same number or the same infinity.
    [nan] is equal to nothing. *)
Inductive equal_floats : float64 -> float64 -> Prop :=
| equal_finite a b : (a == b)%Q -> equal_floats (Finite a) (Finite b)
| equal_pos_inf : equal_floats PosInf PosInf
| equal_neg_inf : equal_floats NegInf NegInf.

(** Three pixels: class 1 is predicted and never the ground truth, class
    2 is the ground truth and never predicted. *)
Definition one_sided_gt : ndarray Z := mk_ndarray [1; 1; 3]%nat [0; 0; 2].
Definition one_sided_pred : ndarray Z := mk_ndarray [1; 1; 3]%nat [0; 1; 1].

(* ------------------------------------------------------------------ *)
(** ** Notions used to state further properties *)

Definition Zsum (l : list Z) : Z := fold_right Z.add 0 l.

(** A float that is a number between 0 and 1. *)
Definition in_unit_interval (x : float64) : Prop :=
  exists q, x = Finite q /\ (0 <= q <= 1)%Q.

(** Two floats that are numbers, the first at most the second. *)
Definition float_le (x y : float64) : Prop :=
  exists a b, x = Finite a /\ y = Finite b /\ (a <= b)%Q.

(* ------------------------------------------------------------------ *)
(** ** Outcomes of calls that may raise *)

Inductive exception : Type :=
| RuntimeError (message : string)
| AttributeError (name : string)
| IndexError
| ZeroDivisionError
| TorchRuntimeError.

Inductive outcome (A : Type) : Type :=
| Returns (a : A)
| Raises (e : exception).

Arguments Returns {A} a.
Arguments Raises {A} e.

(* ------------------------------------------------------------------ *)
(** ** [check_required_flags] *)

(** The values a configuration entry can hold, as far as the comparison
    with the string "None" can tell them apart. *)
Inductive config_value : Type :=
| CfgString (s : string)
| CfgInt (z : Z)
| CfgBool (b : bool)
| CfgNone.

(** A configuration object, through the only operation the source applies
    to it: [getattr(config, name)], which returns a value or raises. *)
Definition DictConfig : Type := string -> outcome config_value.

(** [value == "None"]. *)
Definition is_none_string (v : config_value) : bool :=
  match v with
  | CfgString s => String.eqb s "None"
  | _ => false
  end.

Definition required_message (flag_name : string) : string :=
  ("Flag --" ++ flag_name ++ " is required.")%string.

Fixpoint check_required_flags (required_flags : list string)
         (config : DictConfig) : outcome unit :=
  match required_flags with
  | [] => Returns tt
  | flag_name :: rest =>
      match config flag_name with
      | Raises e => Raises e
      | Returns v =>
          if is_none_string v
          then Raises (RuntimeError (required_message flag_name))
          else check_required_flags rest config
      end
  end.

(** A configuration given by its entries; reading a name that has no
    entry raises. *)
Definition config_of (entries : list (string * config_value)) : DictConfig :=
  fun name =>
    match find (fun e => String.eqb (fst e) name) entries with
    | Some e => Returns (snd e)
    | None => Raises (AttributeError name)
    end.

(** A flag that passes the check. *)
Definition flag_is_set (config : DictConfig) (flag_name : string) : Prop :=
  exists v, config flag_name = Returns v /\ v <> CfgString "None".

(* ------------------------------------------------------------------ *)
(** ** [PrithviSegmentationModule.log_metrics] and the three steps *)

(** [self.log(name, value, ...)] records one named scalar; the log is the
    sequence of these records. *)
Definition log_record : Type := (string * float64)%type.

Definition log (name : string) (value : float64) (logged : list log_record)
  : list log_record := logged ++ [(name, value)].

(** [str(idx)] for a list index. *)
Definition str (idx : nat) : string :=
  NilEmpty.string_of_uint (Nat.to_uint idx).

Definition enumerate {A} (l : list A) : list (nat * A) :=
  combine (seq 0 (length l)) l.

(** One of the four loops [for idx, value in enumerate(out[...])]. *)
Definition log_per_class (stage kind : string) (values : list float64)
           (logged : list log_record) : list log_record :=
  fold_left
    (fun logged iv =>
       log (stage ++ kind ++ str (fst iv))%string (snd iv) logged)
    (enumerate values) logged.

Definition log_metrics (self : PrithviSegmentationModule)
           (predictions : ndarray Q) (labels : ndarray Z)
           (stage : string) (loss : float64) (logged : list log_record)
  : option (list log_record) :=
  out <- compute_metrics self predictions labels ;;
  let logged := log (stage ++ "_loss")%string loss logged in
  let logged := log (stage ++ "_aAcc")%string (acc out) logged in
  let logged := log (stage ++ "_mIoU")%string (iou out) logged in
  let logged := log_per_class stage "_IoU_" (iou_per_class out) logged in
  let logged := log_per_class stage "_Acc_" (acc_per_class out) logged in
  let logged :=
    log_per_class stage "_Precision_" (precision_per_class out) logged in
  let logged := log_per_class stage "_Recall_" (recall_per_class out) logged in
  Some logged.

(** The network and the loss are outside this file: [forward] stands for
    [self.net] and [criterion] for the weighted cross entropy. *)
Section Steps.
Variable forward : ndarray Q -> ndarray Q.
Variable criterion : ndarray Q -> ndarray Z -> float64.

Definition step (stage : string) (self : PrithviSegmentationModule)
           (batch : ndarray Q * ndarray Z) (logged : list log_record)
  : option (float64 * list log_record) :=
  let (inputs, labels) := batch in
  let outputs := forward inputs in
  let loss := criterion outputs labels in
  logged <- log_metrics self outputs labels stage loss logged ;;
  Some (loss, logged).

Definition training_step := step "train".
Definition validation_step := step "val".
Definition test_step := step "test".
End Steps.

(** The metric [ModelCheckpoint] monitors in [main]. *)
Definition checkpoint_monitor : string := "val_mIoU".

(** The first record of a name. *)
Definition logged_value (name : string) (logged : list log_record)
  : option float64 :=
  option_map snd (find (fun r => String.eqb (fst r) name) logged).

(** The records one call of [log_metrics] adds, by the part of each name
    that follows the stage. *)
Definition class_suffixes (kind : string) (values : list float64)
  : list (string * float64) :=
  map (fun iv => ((kind ++ str (fst iv))%string, snd iv)) (enumerate values).

Definition metric_suffixes (loss : float64) (out : metrics)
  : list (string * float64) :=
  [("_loss"%string, loss); ("_aAcc"%string, acc out);
   ("_mIoU"%string, iou out)]
    ++ class_suffixes "_IoU_" (iou_per_class out)
    ++ class_suffixes "_Acc_" (acc_per_class out)
    ++ class_suffixes "_Precision_" (precision_per_class out)
    ++ class_suffixes "_Recall_" (recall_per_class out).

Definition metric_records (stage : string) (loss : float64) (out : metrics)
  : list log_record :=
  map (fun sv => ((stage ++ fst sv)%string, snd sv))
      (metric_suffixes loss out).

(* ------------------------------------------------------------------ *)
(** ** [compute_mean_std] *)

(** The exact sum, mean and population variance of a list of numbers. *)
Definition Qsum (xs : list Q) : Q := fold_right Qplus 0%Q xs.

Definition Qmean (xs : list Q) : Q :=
  (Qsum xs / inject_Z (Z.of_nat (length xs)))%Q.

Definition Qvar (xs : list Q) : Q :=
  Qmean (map (fun x => (x - Qmean xs) * (x - Qmean xs))%Q xs).

(** [t.mean(2)] and [t.var(2, unbiased=False)] on one row of the last
    axis: [nan] when the row is empty. *)
Definition mean_along (xs : list Q) : float64 :=
  match xs with
  | [] => NaN
  | _ => Finite (Qred (Qmean xs))
  end.

Definition var_along (xs : list Q) : float64 :=
  match xs with
  | [] => NaN
  | _ => Finite (Qred (Qvar xs))
  end.

(** Row [(b, c)] of a tensor viewed as [(B, C, P)]. *)
Definition row (values : list Q) (C P b c : nat) : list Q :=
  firstn P (skipn ((b * C + c) * P) values).

(** [t.sum(0)] on a column of floats. *)
Definition sum_floats (l : list float64) : float64 :=
  fold_left np.add l (Finite 0).

(** [data.mean(2).sum(0)] and [data.var(2, unbiased=False).sum(0)] for
    [data] viewed as [(B, C, P)]: one float per channel. *)
Definition channel_sums (along : list Q -> float64) (values : list Q)
           (B C P : nat) : list float64 :=
  map (fun c =>
         sum_floats (map (fun b => along (row values C P b c)) (seq 0 B)))
      (seq 0 C).

(** [mean] and [var] start as the Python float [0.0] and become tensors
    at the first batch. *)
Inductive accumulator : Type :=
| PyFloatZero
| Tensor (values : list float64).

(** [acc += t] for a one-dimensional tensor [t].  On the float [0.0] it
    makes the tensor [0.0 + t]; on a tensor it adds in place, which
    needs [t] to have the length of [acc] or the length 1. *)
Definition iadd (acc : accumulator) (t : list float64) : outcome accumulator :=
  match acc with
  | PyFloatZero => Returns (Tensor (map (fun x => np.add x (Finite 0)) t))
  | Tensor a =>
      if (length t =? length a)%nat then Returns (Tensor (map2 np.add a t))
      else if (length t =? 1)%nat
           then Returns (Tensor (map (fun x => np.add x (hd NaN t)) a))
           else Raises TorchRuntimeError
  end.

Record stats_state : Type := mk_stats_state {
  mean : accumulator;
  var : accumulator;
  nb_samples : Z
}.

(** The body of the loop, lines 297-304, on the [data] of one batch. *)
Definition batch_update (st : stats_state) (batch_data : ndarray Q)
  : outcome stats_state :=
  match shape batch_data with
  | [] | [_] => Raises IndexError
  | batch_samples :: C :: rest =>
      if (batch_samples * C =? 0)%nat then Raises TorchRuntimeError
      else
        let P := numel rest in
        let nb_samples := nb_samples st + Z.of_nat batch_samples in
        match iadd (mean st)
                   (channel_sums mean_along (data batch_data)
                                 batch_samples C P) with
        | Raises e => Raises e
        | Returns mean =>
            match iadd (var st)
                       (channel_sums var_along (data batch_data)
                                     batch_samples C P) with
            | Raises e => Raises e
            | Returns var => Returns (mk_stats_state mean var nb_samples)
            end
        end
  end.

Fixpoint run_loader (data_loader : list (ndarray Q * ndarray Z))
         (st : stats_state) : outcome stats_state :=
  match data_loader with
  | [] => Returns st
  | (batch_data, _) :: rest =>
      match batch_update st batch_data with
      | Raises e => Raises e
      | Returns st => run_loader rest st
      end
  end.

(** [t /= n] on a tensor entry. *)
Definition divide_by (n : Z) (x : float64) : float64 :=
  match x with
  | Finite a =>
      if n =? 0 then
        if Qeq_bool a 0 then NaN
        else if Qle_bool 0 a then PosInf else NegInf
      else Finite (Qred (a / inject_Z n))
  | other => if n =? 0 then NaN else other
  end.

(** [torch.sqrt] is kept symbolic: the root of a rational need not be
    one. *)
Inductive root : Type := Sqrt (radicand : float64).

Definition compute_mean_std (data_loader : list (ndarray Q * ndarray Z))
  : outcome (list float64 * list root) :=
  match run_loader data_loader (mk_stats_state PyFloatZero PyFloatZero 0) with
  | Raises e => Raises e
  | Returns st =>
      match mean st, var st with
      | Tensor mean, Tensor var =>
          Returns (map (divide_by (nb_samples st)) mean,
                   map (fun v => Sqrt (divide_by (nb_samples st) v)) var)
      | _, _ => Raises ZeroDivisionError
      end
  end.

(** The rows of channel [c], one per sample, of a batch and of a loader. *)
Definition batch_rows (c : nat) (batch_data : ndarray Q) : list (list Q) :=
  match shape batch_data with
  | B :: C :: rest =>
      map (fun b => row (data batch_data) C (numel rest) b c) (seq 0 B)
  | _ => []
  end.

Definition loader_rows (c : nat) (data_loader : list (ndarray Q * ndarray Z))
  : list (list Q) :=
  flat_map (fun batch => batch_rows c (fst batch)) data_loader.

(** A loader whose batches have [C] channels, at least one sample and at
    least one value per row. *)
Definition uniform_loader (C : nat)
           (data_loader : list (ndarray Q * ndarray Z)) : Prop :=
  Forall (fun batch =>
            exists B rest,
              shape (fst batch) = B :: C :: rest /\
              B <> 0%nat /\ numel rest <> 0%nat /\
              well_shaped (fst batch))
         data_loader.

(** Two samples of two channels and two pixels, as one batch and as two
    batches of one sample; the labels of a batch play no part. *)
Definition no_labels : ndarray Z := mk_ndarray [] [].
Definition whole_loader : list (ndarray Q * ndarray Z) :=
  [(mk_ndarray [2; 2; 2]%nat [1; 3; 5; 5;  2; 4; 7; 9]%Q, no_labels)].

(** Two samples of one channel, each of one value throughout, the two
    values being different. *)
Definition flat_loader : list (ndarray Q * ndarray Z) :=
  [(mk_ndarray [2; 1; 2]%nat [1; 1;  3; 3]%Q, no_labels)].

(* ------------------------------------------------------------------ *)
(** ** [eval_collate_fn] and [infer_collate_fn] *)

Definition leading {A} (t : ndarray A) : nat := hd 0%nat (shape t).

(** [torch.cat(tensors, 0)].  It raises on an empty list and on a tensor
    without axes; tensors of shape [(0,)] are passed over; the others
    must agree on every axis but the first, along which they are put one
    after the other. *)
Definition torch_cat {A} (tensors : list (ndarray A)) : outcome (ndarray A) :=
  match tensors with
  | [] => Raises TorchRuntimeError
  | _ =>
      if existsb (fun t => list_nat_eqb (shape t) []) tensors
      then Raises TorchRuntimeError
      else
        match filter (fun t => negb (list_nat_eqb (shape t) [0%nat]))
                     tensors with
        | [] => Returns (mk_ndarray [0%nat] [])
        | t0 :: others =>
            if forallb (fun t => list_nat_eqb (tl (shape t)) (tl (shape t0)))
                       others
            then Returns
                   (mk_ndarray
                      (list_sum (map leading (t0 :: others)) :: tl (shape t0))
                      (concat (map data (t0 :: others))))
            else Raises TorchRuntimeError
        end
  end.

(** [torch.stack(tensors, 0)]: the tensors must have one shape, and
    there must be at least one. *)
Definition torch_stack {A} (tensors : list (ndarray A))
  : outcome (ndarray A) :=
  match tensors with
  | [] => Raises TorchRuntimeError
  | t0 :: others =>
      if forallb (fun t => list_nat_eqb (shape t) (shape t0)) others
      then Returns (mk_ndarray (length tensors :: shape t0)
                               (concat (map data tensors)))
      else Raises TorchRuntimeError
  end.

(** An item of the data set: the data and the labels of one tile, and
    the path of its file. *)
Definition item (L : Type) : Type := ((ndarray Q * L) * string)%type.

Definition eval_collate_fn (batch : list (item (ndarray Z)))
  : outcome (ndarray Q * ndarray Z) :=
  match torch_cat (map (fun a => fst (fst a)) batch) with
  | Raises e => Raises e
  | Returns data =>
      match torch_cat (map (fun a => snd (fst a)) batch) with
      | Raises e => Raises e
      | Returns labels => Returns (data, labels)
      end
  end.

Definition infer_collate_fn {L} (batch : list (item L))
  : outcome ((ndarray Q * list L) * list string) :=
  match torch_stack (map (fun a => fst (fst a)) batch) with
  | Raises e => Raises e
  | Returns data =>
      let labels := map (fun a => snd (fst a)) batch in
      let filepaths := map (fun a => snd a) batch in
      Returns ((data, labels), filepaths)
  end.

(** Sample [i] of a stacked tensor whose samples have shape [s]. *)
Definition sample {A} (t : ndarray A) (s : list nat) (i : nat) : list A :=
  firstn (numel s) (skipn (i * numel s) (data t)).

(** Two tiles for evaluation, of two windows and of one window, and two
    chips of one shape for inference. *)
Definition eval_batch : list (item (ndarray Z)) :=
  [((mk_ndarray [2; 1; 1]%nat [1; 2]%Q, mk_ndarray [2; 1]%nat [0; 1]),
    "a.tif"%string);
   ((mk_ndarray [1; 1; 1]%nat [3]%Q, mk_ndarray [1; 1]%nat [1]),
    "b.tif"%string)].

Definition chip_batch : list (item (ndarray Z)) :=
  [((mk_ndarray [1; 2]%nat [1; 2]%Q, mk_ndarray [2]%nat [0; 1]),
    "a.tif"%string);
   ((mk_ndarray [1; 2]%nat [3; 4]%Q, mk_ndarray [2]%nat [1; 1]),
    "b.tif"%string)].

(* ------------------------------------------------------------------ *)
(** ** Facts about the array operations *)

Lemma list_nat_eqb_true (s t : list nat) : list_nat_eqb s t = true <-> s = t.
Proof.
  unfold list_nat_eqb. destruct (list_eq_dec Nat.eq_dec s t); split;
    intros; congruence.
Qed.

Lemma list_nat_eqb_refl (s : list nat) : list_nat_eqb s s = true.
Proof. now apply list_nat_eqb_true. Qed.

Lemma map2_length {A B C} (f : A -> B -> C) l m :
  length l = length m -> length (map2 f l m) = length l.
Proof.
  revert m; induction l as [|a l IH]; intros [|b m] E; simpl in *;
    try discriminate; auto.
Qed.

Lemma map2_diag {A C} (f : A -> A -> C) l :
  map2 f l l = map (fun a => f a a) l.
Proof. induction l; simpl; congruence. Qed.

Arguments np.sum : simpl never.

Module np_facts.

Lemma sum_cons b m : np.sum (b :: m) = Z.b2z b + np.sum m.
Proof. reflexivity. Qed.

Lemma sum_nonneg m : 0 <= np.sum m.
Proof.
  induction m as [|b m IH]; [unfold np.sum; simpl; lia|].
  rewrite sum_cons. destruct b; simpl Z.b2z; lia.
Qed.

Lemma sum_eq_scalar_pos l c : 0 < np.sum (np.eq_scalar l c) <-> In c l.
Proof.
  induction l as [|x l IH].
  - unfold np.sum; simpl. split; [lia | tauto].
  - pose proof (sum_nonneg (np.eq_scalar l c)) as Hn.
    change (np.eq_scalar (x :: l) c)
      with ((x =? c) :: np.eq_scalar l c).
    rewrite sum_cons. simpl In.
    destruct (Z.eqb_spec x c) as [->|Hne]; simpl Z.b2z.
    + split; [auto | lia].
    + rewrite Z.add_0_l, IH.
      split; [auto | intros [E|I]; [congruence | exact I]].
Qed.

Lemma sum_eq_scalar_zero l c : np.sum (np.eq_scalar l c) = 0 <-> ~ In c l.
Proof.
  rewrite <- sum_eq_scalar_pos.
  pose proof (sum_nonneg (np.eq_scalar l c)). lia.
Qed.

Lemma sum_and_le_l a b : np.sum (np.logical_and a b) <= np.sum a.
Proof.
  revert b; induction a as [|x a IH]; intros [|y b];
    try (unfold np.sum; simpl; lia).
  - pose proof (sum_nonneg a). rewrite sum_cons.
    change (np.sum (np.logical_and (x :: a) [])) with 0.
    destruct x; simpl Z.b2z; lia.
  - specialize (IH b).
    change (np.logical_and (x :: a) (y :: b))
      with ((x && y) :: np.logical_and a b).
    rewrite !sum_cons. destruct x, y; simpl Z.b2z; lia.
Qed.

Lemma any_true_iff m : np.any m = true <-> In true m.
Proof.
  unfold np.any. rewrite existsb_exists. split.
  - intros [b [I ->]]; exact I.
  - intros I; exists true; auto.
Qed.

Lemma any_pos m : np.any m = true <-> 0 < np.sum m.
Proof.
  induction m as [|[] m IH].
  - unfold np.sum; simpl. split; [discriminate | lia].
  - pose proof (sum_nonneg m). rewrite sum_cons.
    simpl Z.b2z. simpl np.any. split; [lia | reflexivity].
  - rewrite sum_cons. simpl Z.b2z. rewrite Z.add_0_l. exact IH.
Qed.

(** [np.unique]: membership, order. *)
Lemma insert_In x l c : In c (np.insert x l) <-> c = x \/ In c l.
Proof.
  induction l as [|y t IH]; simpl.
  - intuition.
  - destruct (x <? y); [simpl; intuition|].
    destruct (Z.eqb_spec x y) as [->|Hne]; simpl.
    + intuition.
    + rewrite IH. intuition.
Qed.

Lemma unique_In arr c : In c (np.unique arr) <-> In c arr.
Proof.
  induction arr as [|x arr IH]; simpl; [tauto|].
  rewrite insert_In, IH. intuition.
Qed.

Lemma insert_sorted x l :
  StronglySorted Z.lt l -> StronglySorted Z.lt (np.insert x l).
Proof.
  induction 1 as [|y t Hs IH Hall]; simpl.
  - repeat constructor.
  - destruct (Z.ltb_spec x y) as [Hlt|Hge].
    + constructor; [constructor; assumption|].
      constructor; [exact Hlt|].
      rewrite Forall_forall in *. intros z Hz. specialize (Hall z Hz). lia.
    + destruct (Z.eqb_spec x y) as [->|Hne].
      * constructor; assumption.
      * constructor; [exact IH|].
        rewrite Forall_forall in *. intros z Hz.
        apply insert_In in Hz. destruct Hz as [->|Hz]; [lia | auto].
Qed.

Lemma unique_sorted arr : StronglySorted Z.lt (np.unique arr).
Proof.
  induction arr; simpl; [constructor | now apply insert_sorted].
Qed.

Lemma sorted_NoDup l : StronglySorted Z.lt l -> NoDup l.
Proof.
  induction 1 as [|y t Hs IH Hall]; constructor; auto.
  intro I. rewrite Forall_forall in Hall. specialize (Hall y I). lia.
Qed.

(** Division of a positive count by itself, and a quotient as a rational. *)
Lemma inject_Z_nonzero n : n <> 0 -> ~ (inject_Z n == 0)%Q.
Proof. unfold Qeq, inject_Z; simpl; lia. Qed.

Lemma true_divide_self n : 0 < n -> np.true_divide n n = Finite 1.
Proof.
  intros Hn. unfold np.true_divide.
  destruct (Z.eqb_spec n 0); [lia|].
  f_equal. change 1%Q with (Qred 1). apply Qred_complete.
  field; now apply inject_Z_nonzero.
Qed.

Lemma true_divide_zero n : 0 < n -> np.true_divide 0 n = Finite 0.
Proof.
  intros Hn. unfold np.true_divide.
  destruct (Z.eqb_spec n 0); [lia|].
  reflexivity.
Qed.

Lemma true_divide_finite a b :
  b <> 0 ->
  exists q, np.true_divide a b = Finite q /\ (q == inject_Z a / inject_Z b)%Q.
Proof.
  intros Hb. unfold np.true_divide.
  destruct (Z.eqb_spec b 0); [contradiction|].
  eexists; split; [reflexivity | apply Qred_correct].
Qed.

End np_facts.

(* ------------------------------------------------------------------ *)
(** ** The per-class loop on the selected arrays *)

Section LoopFacts.
Variables pred gt : list Z.

Lemma loop_from (cs : list Z) (st : per_class) :
  fold_left (loop_body pred gt) cs st =
  mk_per_class
    (pc_iou st ++
       map (class_iou pred gt)
           (filter (fun c => np.any (union pred gt c)) cs))
    (pc_accuracy st ++ map (class_accuracy pred gt) cs)
    (pc_precision st ++ map (class_precision pred gt) cs)
    (pc_recall st ++ map (class_recall pred gt) cs).
Proof.
  revert st; induction cs as [|c cs IH]; intros st; simpl.
  - rewrite !app_nil_r. now destruct st.
  - rewrite IH. unfold loop_body; simpl.
    destruct (np.any (union pred gt c)); simpl;
      now rewrite <- ?app_assoc.
Qed.

Lemma class_loop_eq :
  class_loop pred gt =
  mk_per_class
    (map (class_iou pred gt)
         (filter (fun c => np.any (union pred gt c)) (classes pred gt)))
    (map (class_accuracy pred gt) (classes pred gt))
    (map (class_precision pred gt) (classes pred gt))
    (map (class_recall pred gt) (classes pred gt)).
Proof. unfold class_loop. now rewrite loop_from. Qed.

Lemma classes_In c : In c (classes pred gt) <-> In c pred \/ In c gt.
Proof.
  unfold classes, np.concatenate.
  rewrite np_facts.unique_In, in_app_iff. tauto.
Qed.

Lemma classes_sorted : StronglySorted Z.lt (classes pred gt).
Proof. apply np_facts.unique_sorted. Qed.

Lemma tp_plus_fn c :
  true_positive pred gt c + false_negative pred gt c = np.sum (gt_cls gt c).
Proof. unfold false_negative. lia. Qed.

Lemma tp_plus_fp c :
  true_positive pred gt c + false_positive pred gt c
  = np.sum (pred_cls pred c).
Proof. unfold false_positive. lia. Qed.

Lemma accuracy_is_recall c :
  class_accuracy pred gt c = class_recall pred gt c.
Proof. unfold class_accuracy, class_recall. now rewrite tp_plus_fn. Qed.

Hypothesis same_length : length pred = length gt.

Lemma union_any c :
  np.any (union pred gt c) = true <-> In c pred \/ In c gt.
Proof.
  unfold union, pred_cls, gt_cls, np.logical_or, np.eq_scalar.
  rewrite np_facts.any_true_iff.
  revert same_length. generalize gt as g. clear.
  induction pred as [|x p IH]; intros [|y g] E; simpl in *;
    try discriminate; [tauto|].
  injection E as E. specialize (IH g E).
  destruct (Z.eqb_spec x c) as [->|Hx], (Z.eqb_spec y c) as [->|Hy];
    simpl; try tauto.
  rewrite IH. intuition congruence.
Qed.

Lemma union_any_on_classes :
  filter (fun c => np.any (union pred gt c)) (classes pred gt)
  = classes pred gt.
Proof.
  apply forallb_filter_id, forallb_forall. intros c Hc.
  apply union_any, classes_In, Hc.
Qed.

Lemma class_loop_maps :
  class_loop pred gt =
  mk_per_class (map (class_iou pred gt) (classes pred gt))
               (map (class_accuracy pred gt) (classes pred gt))
               (map (class_precision pred gt) (classes pred gt))
               (map (class_recall pred gt) (classes pred gt)).
Proof. now rewrite class_loop_eq, union_any_on_classes. Qed.

(** A class of the universe without a ground-truth pixel has an IoU of
    zero, not an undefined one: its union is its non-empty prediction. *)
Lemma iou_without_ground_truth c :
  In c (classes pred gt) -> np.sum (gt_cls gt c) = 0 ->
  class_iou pred gt c = Finite 0.
Proof.
  intros Hc Hz. unfold class_iou.
  assert (Hu : 0 < np.sum (union pred gt c))
    by (apply np_facts.any_pos, union_any, classes_In, Hc).
  assert (Hi : np.sum (intersection pred gt c) = 0).
  { pose proof (np_facts.sum_nonneg (intersection pred gt c)).
    pose proof (np_facts.sum_and_le_l (gt_cls gt c) (pred_cls pred c)).
    unfold intersection.
    replace (np.logical_and (pred_cls pred c) (gt_cls gt c))
      with (np.logical_and (gt_cls gt c) (pred_cls pred c)).
    - pose proof (np_facts.sum_nonneg
                    (np.logical_and (gt_cls gt c) (pred_cls pred c))). lia.
    - unfold np.logical_and. generalize (pred_cls pred c), (gt_cls gt c).
      clear. intros a b; revert a; induction b as [|y b IH];
        intros [|x a]; simpl; auto.
      now rewrite IH, andb_comm. }
  rewrite Hi. now apply np_facts.true_divide_zero.
Qed.
End LoopFacts.

(* ------------------------------------------------------------------ *)
(** ** Selecting the evaluated pixels *)

Section SelectionFacts.
Variable keep : Z -> bool.

Lemma select_same_length (p g : list Z) :
  length p = length g ->
  length (torch.select p (map keep g))
  = length (torch.select g (map keep g)).
Proof.
  revert g; induction p as [|x p IH]; intros [|y g] E; simpl in *;
    try discriminate; auto.
  injection E as E. destruct (keep y); simpl; auto.
Qed.

Lemma select_combine (p g : list Z) :
  length p = length g ->
  combine (torch.select p (map keep g)) (torch.select g (map keep g))
  = filter (fun pg => keep (snd pg)) (combine p g).
Proof.
  revert g; induction p as [|x p IH]; intros [|y g] E; simpl in *;
    try discriminate; auto.
  injection E as E. destruct (keep y); simpl; now rewrite IH.
Qed.

Lemma select_everything (p g : list Z) :
  length p = length g -> Forall (fun y => keep y = true) g ->
  torch.select p (map keep g) = p.
Proof.
  revert g; induction p as [|x p IH]; intros [|y g] E F; simpl in *;
    try discriminate; auto.
  injection E as E. inversion F as [|? ? Hy F']; subst.
  rewrite Hy. f_equal. now apply IH.
Qed.

Lemma select_nothing {A} (p : list A) (g : list Z) :
  Forall (fun y => keep y = false) g ->
  torch.select p (map keep g) = [].
Proof.
  revert p; induction g as [|y g IH]; intros [|x p] F; simpl; auto.
  inversion F as [|? ? Hy F']; subst. rewrite Hy. now apply IH.
Qed.

Lemma select_members (p g : list Z) (c : Z) :
  length p = length g ->
  (In c (torch.select p (map keep g))
   \/ In c (torch.select g (map keep g)))
  <-> exists j x y,
      nth_error p j = Some x /\ nth_error g j = Some y /\
      keep y = true /\ (c = x \/ c = y).
Proof.
  revert g; induction p as [|x p IH]; intros [|y g] E; simpl in *;
    try discriminate.
  - split; [tauto|]. intros (j & a & b & Hj & _). now destruct j.
  - injection E as E. specialize (IH g E).
    assert (Hshift :
      (exists j a b, nth_error (x :: p) j = Some a /\
                     nth_error (y :: g) j = Some b /\
                     keep b = true /\ (c = a \/ c = b))
      <-> (keep y = true /\ (c = x \/ c = y))
          \/ exists j a b, nth_error p j = Some a /\
                           nth_error g j = Some b /\
                           keep b = true /\ (c = a \/ c = b)).
    { split.
      - intros ([|j] & a & b & Ha & Hb & Hk & Hc); simpl in *.
        + injection Ha as <-. injection Hb as <-. now left.
        + right. now exists j, a, b.
      - intros [[Hk Hc] | (j & a & b & H)].
        + now exists 0%nat, x, y.
        + now exists (S j), a, b. }
    rewrite Hshift, <- IH. clear Hshift IH.
    destruct (keep y); simpl; intuition congruence.
Qed.
End SelectionFacts.

Lemma sum_eq_array (a b : list Z) :
  np.sum (np.eq_array a b)
  = Z.of_nat (length (filter (fun pg => fst pg =? snd pg) (combine a b))).
Proof.
  unfold np.eq_array.
  revert b; induction a as [|x a IH]; intros [|y b]; try reflexivity.
  change (map2 Z.eqb (x :: a) (y :: b)) with ((x =? y) :: map2 Z.eqb a b).
  rewrite np_facts.sum_cons, IH. simpl.
  destruct (x =? y); simpl length; simpl Z.b2z; lia.
Qed.

Section CallFacts.
Variable self : PrithviSegmentationModule.
Variables pred_mask gt_mask : ndarray Z.

Lemma selected_pred_inv sp :
  selected_pred self pred_mask gt_mask = Some sp ->
  shape pred_mask = shape gt_mask /\
  sp = torch.select (data pred_mask) (map (kept self) (data gt_mask)).
Proof.
  unfold selected_pred, torch.masked_select, no_ignore, torch.ne; simpl.
  destruct (list_nat_eqb _ _) eqn:E; [|discriminate].
  apply list_nat_eqb_true in E. intros [= <-]. now split.
Qed.

Lemma selected_gt_eq :
  selected_gt self gt_mask
  = Some (torch.select (data gt_mask) (map (kept self) (data gt_mask))).
Proof.
  unfold selected_gt, torch.masked_select, no_ignore, torch.ne; simpl.
  now rewrite list_nat_eqb_refl.
Qed.

Lemma selected_pred_eq :
  shape pred_mask = shape gt_mask ->
  selected_pred self pred_mask gt_mask
  = Some (torch.select (data pred_mask) (map (kept self) (data gt_mask))).
Proof.
  intros E.
  unfold selected_pred, torch.masked_select, no_ignore, torch.ne; simpl.
  now rewrite E, list_nat_eqb_refl.
Qed.

Lemma metrics_of_class_mask_inv out :
  metrics_of_class_mask self pred_mask gt_mask = Some out ->
  exists sp sg,
    selected_pred self pred_mask gt_mask = Some sp /\
    selected_gt self gt_mask = Some sg /\
    out = metrics_of_selected sp sg.
Proof.
  unfold metrics_of_class_mask.
  destruct (selected_pred self pred_mask gt_mask) as [sp|]; [|discriminate].
  destruct (selected_gt self gt_mask) as [sg|]; [|discriminate].
  intros [= <-]. now exists sp, sg.
Qed.

Lemma metrics_of_class_mask_eq :
  shape pred_mask = shape gt_mask ->
  metrics_of_class_mask self pred_mask gt_mask
  = Some (metrics_of_selected
            (torch.select (data pred_mask) (map (kept self) (data gt_mask)))
            (torch.select (data gt_mask) (map (kept self) (data gt_mask)))).
Proof.
  intros E. unfold metrics_of_class_mask.
  now rewrite (selected_pred_eq E), selected_gt_eq.
Qed.

Lemma same_data_length :
  shape pred_mask = shape gt_mask ->
  well_shaped pred_mask -> well_shaped gt_mask ->
  length (data pred_mask) = length (data gt_mask).
Proof. unfold well_shaped. intros E -> ->. now rewrite E. Qed.
End CallFacts.

Lemma compute_metrics_argmax self scores gt_mask out :
  compute_metrics self scores gt_mask = Some out <->
  exists pred_mask,
    torch.argmax_dim1 scores = Some pred_mask /\
    metrics_of_class_mask self pred_mask gt_mask = Some out.
Proof.
  unfold compute_metrics. destruct (torch.argmax_dim1 scores) as [pm|].
  - split; [intros H; now exists pm | intros (pm' & [= <-] & H); exact H].
  - split; [discriminate | intros (pm' & [=] & _)].
Qed.

(* ------------------------------------------------------------------ *)
(** ** Properties of [compute_metrics] *)

(** A call on masks of one shape returns a report. *)
Lemma same_shape_returns self pred_mask gt_mask :
  shape pred_mask = shape gt_mask ->
  exists out, metrics_of_class_mask self pred_mask gt_mask = Some out.
Proof. intros E. eexists. now apply metrics_of_class_mask_eq. Qed.

(** When every ground-truth pixel is the ignore value nothing is selected:
    the universe and the four vectors are empty, the mean IoU is the
    guarded [0.0], and the overall accuracy is the unguarded [0 / 0]. *)
Lemma all_ignored_report self pred_mask gt_mask :
  shape pred_mask = shape gt_mask ->
  Forall (fun g => g = ignore_index self) (data gt_mask) ->
  metrics_of_class_mask self pred_mask gt_mask
  = Some (mk_metrics (Finite 0) NaN [] [] [] []).
Proof.
  intros E F. rewrite (metrics_of_class_mask_eq self _ _ E).
  assert (K : Forall (fun y => kept self y = false) (data gt_mask)).
  { eapply Forall_impl; [|exact F]. simpl. intros g ->.
    unfold kept. now rewrite Z.eqb_refl. }
  now rewrite !(select_nothing _ _ _ K).
Qed.

(** C1 fails as stated.  With ground truth [0 0] and prediction [0 1],
    class 1 has no ground-truth pixel and is predicted; its IoU [0] is
    averaged with the IoU [1/2] of class 0, so the mean IoU is [1/4],
    where leaving class 1 out would give [1/2]. *)
Lemma zero_ground_truth_class_is_averaged :
  ~ zero_ground_truth_class_excluded
      default_module unseen_class_pred unseen_class_gt.
Proof.
  intros H.
  destruct (H unseen_class_report [0; 1] [0; 0] 1 1%nat) as [Hiou _];
    try reflexivity.
  - simpl. auto.
  - vm_compute in Hiou. discriminate Hiou.
Qed.

(** C1, amended: in a call on well-shaped masks of one shape, a class
    of the universe that has no ground-truth pixel among the evaluated
    pixels and is predicted has an IoU entry of zero, which is counted in
    the mean IoU (the mean runs over every class of the universe), and an
    accuracy entry of zero. *)
Theorem zero_ground_truth_class_counts_as_zero
        self pred_mask gt_mask out sp sg c i :
  shape pred_mask = shape gt_mask ->
  well_shaped pred_mask -> well_shaped gt_mask ->
  metrics_of_class_mask self pred_mask gt_mask = Some out ->
  selected_pred self pred_mask gt_mask = Some sp ->
  selected_gt self gt_mask = Some sg ->
  np.sum (gt_cls sg c) = 0 -> In c sp ->
  nth_error (classes sp sg) i = Some c ->
  nth_error (iou_per_class out) i = Some (Finite 0) /\
  length (iou_per_class out) = length (classes sp sg) /\
  iou out = np.mean (map (class_iou sp sg) (classes sp sg)) /\
  nth_error (acc_per_class out) i = Some (Finite 0).
Proof.
  intros E Wp Wg Hout Hsp Hsg Hz Hin Hi.
  pose proof (same_data_length _ _ E Wp Wg) as L.
  apply selected_pred_inv in Hsp as [_ ->].
  rewrite selected_gt_eq in Hsg. injection Hsg as <-.
  rewrite (metrics_of_class_mask_eq self _ _ E) in Hout.
  injection Hout as <-.
  set (sp := torch.select (data pred_mask) _) in *.
  set (sg := torch.select (data gt_mask) _) in *.
  assert (Ls : length sp = length sg)
    by (apply select_same_length, L).
  unfold metrics_of_selected, mean_iou; simpl.
  rewrite (class_loop_maps _ _ Ls); simpl.
  assert (Hc : In c (classes sp sg)) by (apply classes_In; now left).
  repeat split.
  - rewrite nth_error_map, Hi; simpl.
    now rewrite (iou_without_ground_truth _ _ Ls c Hc Hz).
  - now rewrite length_map.
  - destruct (classes sp sg) as [|c0 cs]; [destruct Hc | reflexivity].
  - rewrite nth_error_map, Hi; simpl. unfold class_accuracy.
    now rewrite Hz.
Qed.

Lemma zero_ground_truth_class_counts_as_zero_witness :
  nth_error (iou_per_class unseen_class_report) 1 = Some (Finite 0) /\
  length (iou_per_class unseen_class_report) = length (classes [0; 1] [0; 0]) /\
  iou unseen_class_report
  = np.mean (map (class_iou [0; 1] [0; 0]) (classes [0; 1] [0; 0])) /\
  nth_error (acc_per_class unseen_class_report) 1 = Some (Finite 0).
Proof.
  apply (zero_ground_truth_class_counts_as_zero
           default_module unseen_class_pred unseen_class_gt
           unseen_class_report [0; 1] [0; 0] 1 1%nat);
    try reflexivity.
  simpl. auto.
Defined.

Example unseen_class_call :
  metrics_of_class_mask default_module unseen_class_pred unseen_class_gt
  = Some unseen_class_report /\
  spec_mean_iou [0; 1] [0; 0] = Finite (1 # 2).
Proof. split; reflexivity. Qed.

(** C2: on a batch whose labels are all the ignore value the call
    returns a report with empty per-class vectors and a mean IoU of 0.0,
    but its overall accuracy is [nan]: line 279 divides the zero count of
    correct pixels by the zero size of the selected ground truth, and is
    the one division of the method without a guard. *)
Theorem all_ignored_accuracy_is_nan :
  compute_metrics default_module scenario_scores ignored_labels
  = Some (mk_metrics (Finite 0) NaN [] [] [] []) /\
  torch.argmax_dim1 scenario_scores = Some scenario_class_mask /\
  class_universe default_module scenario_class_mask ignored_labels = Some [].
Proof. repeat split; reflexivity. Qed.

(** C3: the specification's scenario.  Class 0 has TP=1, FP=0, FN=1 and
    class 1 has TP=2, FP=1, FN=0; the IoUs are 1/2 and 2/3 and the overall
    accuracy is 3/4, from the masks and from the class scores alike. *)
Theorem scenario_metrics :
  selected_pred default_module scenario_pred scenario_gt = Some [0; 1; 1; 1] /\
  selected_gt default_module scenario_gt = Some [0; 0; 1; 1] /\
  class_universe default_module scenario_pred scenario_gt = Some [0; 1] /\
  true_positive [0; 1; 1; 1] [0; 0; 1; 1] 0 = 1 /\
  false_positive [0; 1; 1; 1] [0; 0; 1; 1] 0 = 0 /\
  false_negative [0; 1; 1; 1] [0; 0; 1; 1] 0 = 1 /\
  true_positive [0; 1; 1; 1] [0; 0; 1; 1] 1 = 2 /\
  false_positive [0; 1; 1; 1] [0; 0; 1; 1] 1 = 1 /\
  false_negative [0; 1; 1; 1] [0; 0; 1; 1] 1 = 0 /\
  metrics_of_class_mask default_module scenario_pred scenario_gt
  = Some scenario_report /\
  iou_per_class scenario_report = [Finite (1 # 2); Finite (2 # 3)] /\
  acc scenario_report = Finite (3 # 4) /\
  compute_metrics default_module scenario_scores scenario_labels
  = Some scenario_report.
Proof. repeat split; reflexivity. Qed.

(** C9: the per-class accuracy vector of a report is its per-class
    recall vector; both hold, for each class of the universe in turn,
    the true positives over the ground-truth count of the class, and zero
    when that count is zero. *)
Theorem accuracy_vector_is_recall_vector self pred_mask gt_mask out :
  metrics_of_class_mask self pred_mask gt_mask = Some out ->
  acc_per_class out = recall_per_class out /\
  exists sp sg,
    selected_pred self pred_mask gt_mask = Some sp /\
    selected_gt self gt_mask = Some sg /\
    recall_per_class out
    = map (fun c => if 0 <? np.sum (gt_cls sg c)
                    then np.true_divide (true_positive sp sg c)
                                        (np.sum (gt_cls sg c))
                    else Finite 0)
          (classes sp sg).
Proof.
  intros H.
  destruct (metrics_of_class_mask_inv _ _ _ _ H) as (sp & sg & Hp & Hg & ->).
  unfold metrics_of_selected; simpl. rewrite class_loop_eq; simpl.
  split.
  - apply map_ext. intros c. apply accuracy_is_recall.
  - exists sp, sg. repeat split; auto.
    apply map_ext. intros c. now rewrite <- accuracy_is_recall.
Qed.

Lemma accuracy_vector_is_recall_vector_witness :
  acc_per_class scenario_report = recall_per_class scenario_report /\
  exists sp sg,
    selected_pred default_module scenario_pred scenario_gt = Some sp /\
    selected_gt default_module scenario_gt = Some sg /\
    recall_per_class scenario_report
    = map (fun c => if 0 <? np.sum (gt_cls sg c)
                    then np.true_divide (true_positive sp sg c)
                                        (np.sum (gt_cls sg c))
                    else Finite 0)
          (classes sp sg).
Proof.
  apply (accuracy_vector_is_recall_vector
           default_module scenario_pred scenario_gt scenario_report).
  reflexivity.
Defined.

(** The per-class quantities when the prediction is the ground truth. *)
Section PerfectPrediction.
Variable d : list Z.

Lemma intersection_diag c : intersection d d c = np.eq_scalar d c.
Proof.
  unfold intersection, np.logical_and, pred_cls, gt_cls.
  rewrite map2_diag. erewrite map_ext; [|apply andb_diag].
  apply map_id.
Qed.

Lemma union_diag c : union d d c = np.eq_scalar d c.
Proof.
  unfold union, np.logical_or, pred_cls, gt_cls.
  rewrite map2_diag. erewrite map_ext; [|apply orb_diag].
  apply map_id.
Qed.

Lemma perfect_counts c :
  true_positive d d c = np.sum (np.eq_scalar d c) /\
  false_positive d d c = 0 /\ false_negative d d c = 0.
Proof.
  unfold false_positive, false_negative, true_positive, pred_cls, gt_cls.
  rewrite intersection_diag. lia.
Qed.

Lemma perfect_ratios c :
  In c d ->
  class_iou d d c = Finite 1 /\ class_accuracy d d c = Finite 1 /\
  class_precision d d c = Finite 1 /\ class_recall d d c = Finite 1.
Proof.
  intros Hc. apply np_facts.sum_eq_scalar_pos in Hc.
  destruct (perfect_counts c) as (Htp & Hfp & Hfn).
  unfold class_iou, class_accuracy, class_precision, class_recall.
  rewrite Hfp, Hfn, Htp, intersection_diag, union_diag, Z.add_0_r.
  unfold gt_cls.
  destruct (Z.ltb_spec 0 (np.sum (np.eq_scalar d c))); [|lia].
  now rewrite np_facts.true_divide_self.
Qed.
End PerfectPrediction.

(** C5: with at least one evaluated pixel, the overall accuracy of the
    report is the number of evaluated pixels whose prediction is their
    ground truth over the number of evaluated pixels. *)
Theorem overall_accuracy_is_global_ratio self pred_mask gt_mask :
  shape pred_mask = shape gt_mask ->
  well_shaped pred_mask -> well_shaped gt_mask ->
  evaluated_pixels (ignore_index self) (data pred_mask) (data gt_mask) <> [] ->
  exists out q,
    metrics_of_class_mask self pred_mask gt_mask = Some out /\
    acc out = Finite q /\
    (q == inject_Z (Z.of_nat (length (correct_pixels
                                        (ignore_index self)
                                        (data pred_mask) (data gt_mask))))
          / inject_Z (Z.of_nat (length (evaluated_pixels
                                          (ignore_index self)
                                          (data pred_mask) (data gt_mask)))))%Q.
Proof.
  intros E Wp Wg Hne.
  pose proof (same_data_length _ _ E Wp Wg) as L.
  rewrite (metrics_of_class_mask_eq self _ _ E).
  set (sp := torch.select (data pred_mask) _).
  set (sg := torch.select (data gt_mask) _).
  assert (Ls : length sp = length sg) by (apply select_same_length, L).
  assert (Hc : combine sp sg
               = evaluated_pixels (ignore_index self)
                                  (data pred_mask) (data gt_mask))
    by (apply (select_combine (kept self)), L).
  assert (Hn : length sg
               = length (evaluated_pixels (ignore_index self)
                                          (data pred_mask) (data gt_mask)))
    by (rewrite <- Hc, length_combine; lia).
  destruct (np_facts.true_divide_finite
              (np.sum (np.eq_array sp sg)) (Z.of_nat (length sg)))
    as (q & Hq & Hval).
  { rewrite Hn.
    destruct (evaluated_pixels _ _ _); [congruence | simpl; lia]. }
  exists (metrics_of_selected sp sg), q.
  split; [reflexivity|]. split; [exact Hq|].
  rewrite Hval, sum_eq_array, Hc, Hn. reflexivity.
Qed.

Lemma overall_accuracy_is_global_ratio_witness :
  exists out q,
    metrics_of_class_mask default_module skewed_pred skewed_gt = Some out /\
    acc out = Finite q /\
    (q == inject_Z (Z.of_nat (length (correct_pixels
                                        (ignore_index default_module)
                                        (data skewed_pred) (data skewed_gt))))
          / inject_Z (Z.of_nat (length (evaluated_pixels
                                          (ignore_index default_module)
                                          (data skewed_pred)
                                          (data skewed_gt)))))%Q.
Proof.
  apply (overall_accuracy_is_global_ratio default_module skewed_pred skewed_gt).
  - reflexivity.
  - reflexivity.
  - reflexivity.
  - vm_compute. discriminate.
Defined.

(** The overall accuracy is not the average of the per-class accuracies:
    with three pixels of class 0 and one of class 1, all predicted as 0,
    it is 3/4 while the per-class accuracies 1 and 0 average to 1/2. *)
Example overall_accuracy_is_not_class_average :
  exists out,
    metrics_of_class_mask default_module skewed_pred skewed_gt = Some out /\
    acc out = Finite (3 # 4) /\
    acc_per_class out = [Finite 1; Finite 0] /\
    np.mean (acc_per_class out) = Finite (1 # 2).
Proof. eexists. repeat split; reflexivity. Qed.



(** The universe follows the data, not the configuration: a module
    configured for two classes meets three here, one of them the label 5. *)
Example class_universe_exceeds_configuration :
  num_classes default_module = 2 /\
  class_universe default_module partly_ignored_pred partly_ignored_gt
  = Some [0; 1; 5].
Proof. split; reflexivity. Qed.

(* ------------------------------------------------------------------ *)
(** ** Properties of the no-data masking *)

Lemma nth_error_map2 {A B C} (f : A -> B -> C) l m j :
  nth_error (map2 f l m) j
  = match nth_error l j, nth_error m j with
    | Some a, Some b => Some (f a b)
    | _, _ => None
    end.
Proof.
  revert m j; induction l as [|a l IH]; intros [|b m] [|j]; simpl; auto.
  now destruct (nth_error l j).
Qed.

Lemma nth_map_or_default {A B} (f : A -> B) l i d :
  nth i (map f l) d
  = match nth_error l i with Some v => f v | None => d end.
Proof.
  revert i; induction l as [|a l IH]; intros [|i]; simpl; auto.
Qed.

Lemma nth_error_map_seq {A} (f : nat -> A) n j :
  (j < n)%nat -> nth_error (map f (seq 0 n)) j = Some (f j).
Proof.
  intros Hj. rewrite nth_error_map, nth_error_seq.
  destruct (Nat.ltb_spec j n); [reflexivity | lia].
Qed.

Lemma b2z_is_one b : (Z.b2z b =? 1) = b.
Proof. now destruct b. Qed.

Section NoDataMask.
Variable no_data_value : float64.
Variables hls_tile prediction : ndarray float64.
Variables C H W : nat.
Hypothesis tile_shape : shape hls_tile = [C; H; W].
Hypothesis prediction_shape : shape prediction = [H; W].
Hypothesis prediction_data : well_shaped prediction.

Lemma written_prediction_eq :
  written_prediction no_data_value hls_tile prediction
  = Some (mk_ndarray [H; W]
            (map2 (fun (b : bool) v => if b then NaN else v)
                  (map (no_data_at no_data_value hls_tile C H W) (seq 0 (H * W)))
                  (data prediction))).
Proof.
  unfold written_prediction, nan_mask, np.any_axis0, mask_prediction,
    np.where_scalar, np.astype_int; simpl.
  rewrite tile_shape; simpl. rewrite prediction_shape, list_nat_eqb_refl.
  rewrite Nat.mul_1_r, !map_map. do 3 f_equal.
  apply map_ext. intros j. apply b2z_is_one.
Qed.

Lemma written_pixel r c :
  (r < H)%nat -> (c < W)%nat ->
  exists v,
    at2 prediction W r c = Some v /\
    nth_error
      (map2 (fun (b : bool) v => if b then NaN else v)
            (map (no_data_at no_data_value hls_tile C H W) (seq 0 (H * W))) (data prediction))
      (r * W + c)
    = Some (if no_data_at no_data_value hls_tile C H W (r * W + c)
            then NaN else v).
Proof.
  intros Hr Hc.
  assert (Hj : (r * W + c < H * W)%nat) by nia.
  assert (Hlen : length (data prediction) = (H * W)%nat).
  { unfold well_shaped in prediction_data.
    rewrite prediction_data, prediction_shape. simpl. lia. }
  unfold at2.
  destruct (nth_error (data prediction) (r * W + c)) as [v|] eqn:Hv.
  - exists v. split; [reflexivity|].
    now rewrite nth_error_map2, (nth_error_map_seq _ _ _ Hj), Hv.
  - apply nth_error_None in Hv. lia.
Qed.

Lemma no_data_at_true r c :
  no_data_at no_data_value hls_tile C H W (r * W + c) = true <->
  exists ch v, (ch < C)%nat /\ at3 hls_tile H W ch r c = Some v /\
               np.eq_float v no_data_value = true.
Proof.
  unfold no_data_at, at3. rewrite existsb_exists. split.
  - intros (ch & Hin & Hnth). apply in_seq in Hin.
    rewrite nth_map_or_default in Hnth.
    replace (ch * (H * W) + (r * W + c))%nat
      with ((ch * H + r) * W + c)%nat in Hnth by lia.
    destruct (nth_error (data hls_tile) ((ch * H + r) * W + c))
      as [v|] eqn:Hv; [|discriminate].
    exists ch, v. repeat split; auto. lia.
  - intros (ch & v & Hch & Hv & Heq). exists ch. split.
    + apply in_seq. lia.
    + rewrite nth_map_or_default.
      replace (ch * (H * W) + (r * W + c))%nat
        with ((ch * H + r) * W + c)%nat by lia.
      now rewrite Hv.
Qed.
End NoDataMask.

Example example_written_prediction :
  written_prediction example_no_data example_tile example_prediction
  = Some (mk_ndarray [1; 2]%nat [Finite 0; NaN]).
Proof. reflexivity. Qed.

(* ------------------------------------------------------------------ *)
(** ** Further properties of [compute_metrics] *)

(** What a call on well-shaped masks of one shape selects and returns. *)
Lemma call_on_selected self pred_mask gt_mask out sp sg :
  shape pred_mask = shape gt_mask ->
  well_shaped pred_mask -> well_shaped gt_mask ->
  metrics_of_class_mask self pred_mask gt_mask = Some out ->
  selected_pred self pred_mask gt_mask = Some sp ->
  selected_gt self gt_mask = Some sg ->
  length sp = length sg /\ out = metrics_of_selected sp sg /\
  combine sp sg
  = evaluated_pixels (ignore_index self) (data pred_mask) (data gt_mask).
Proof.
  intros E Wp Wg Hout Hsp Hsg.
  pose proof (same_data_length _ _ E Wp Wg) as L.
  apply selected_pred_inv in Hsp as [_ ->].
  rewrite selected_gt_eq in Hsg. injection Hsg as <-.
  rewrite (metrics_of_class_mask_eq self _ _ E) in Hout.
  injection Hout as <-.
  split; [apply select_same_length, L|]. split; [reflexivity|].
  apply (select_combine (kept self)), L.
Qed.

Section CountFacts.
Variables pred gt : list Z.
Hypothesis same_length : length pred = length gt.

Lemma union_count c :
  np.sum (union pred gt c)
  = true_positive pred gt c + false_positive pred gt c
    + false_negative pred gt c.
Proof.
  unfold false_positive, false_negative, true_positive, intersection, union,
    pred_cls, gt_cls, np.logical_and, np.logical_or, np.eq_scalar.
  revert same_length. generalize gt as g. clear.
  induction pred as [|x p IH]; intros [|y g] E; simpl in *;
    try discriminate; [reflexivity|].
  injection E as E. specialize (IH g E).
  rewrite !np_facts.sum_cons.
  destruct (x =? c), (y =? c); simpl Z.b2z; simpl andb; simpl orb; lia.
Qed.

Lemma intersection_le_gt c :
  np.sum (intersection pred gt c) <= np.sum (gt_cls gt c).
Proof.
  unfold intersection, np.logical_and, pred_cls, gt_cls, np.eq_scalar.
  revert same_length. generalize gt as g. clear.
  induction pred as [|x p IH]; intros [|y g] E; simpl in *;
    try (exfalso; discriminate E); [unfold np.sum; simpl; lia|].
  injection E as E. specialize (IH g E).
  rewrite !np_facts.sum_cons.
  destruct (x =? c), (y =? c); simpl Z.b2z; simpl andb; lia.
Qed.

Lemma counts_nonneg c :
  0 <= true_positive pred gt c /\ 0 <= false_positive pred gt c /\
  0 <= false_negative pred gt c.
Proof.
  unfold false_positive, false_negative, true_positive.
  pose proof (np_facts.sum_nonneg (intersection pred gt c)).
  pose proof (np_facts.sum_and_le_l (pred_cls pred c) (gt_cls gt c)).
  pose proof (intersection_le_gt c).
  unfold intersection in *. lia.
Qed.

Lemma union_positive c : In c (classes pred gt) -> 0 < np.sum (union pred gt c).
Proof.
  intros Hc. apply np_facts.any_pos, (union_any _ _ same_length), classes_In, Hc.
Qed.
End CountFacts.

(** X1: the IoU entry of a class is its true positives over the sum of
    its true positives, false positives and false negatives. *)
Theorem iou_is_tp_over_tp_fp_fn
        self pred_mask gt_mask out sp sg i c :
  shape pred_mask = shape gt_mask ->
  well_shaped pred_mask -> well_shaped gt_mask ->
  metrics_of_class_mask self pred_mask gt_mask = Some out ->
  selected_pred self pred_mask gt_mask = Some sp ->
  selected_gt self gt_mask = Some sg ->
  nth_error (classes sp sg) i = Some c ->
  0 < true_positive sp sg c + false_positive sp sg c
      + false_negative sp sg c /\
  nth_error (iou_per_class out) i
  = Some (np.true_divide
            (true_positive sp sg c)
            (true_positive sp sg c + false_positive sp sg c
             + false_negative sp sg c)).
Proof.
  intros E Wp Wg Hout Hsp Hsg Hi.
  destruct (call_on_selected _ _ _ _ _ _ E Wp Wg Hout Hsp Hsg)
    as (Ls & -> & _).
  rewrite <- (union_count _ _ Ls). split.
  - apply (union_positive _ _ Ls). eapply nth_error_In, Hi.
  - unfold metrics_of_selected; simpl.
    rewrite (class_loop_maps _ _ Ls); simpl.
    now rewrite nth_error_map, Hi.
Qed.

Lemma iou_is_tp_over_tp_fp_fn_witness :
  0 < true_positive [0; 1; 1; 1] [0; 0; 1; 1] 1
      + false_positive [0; 1; 1; 1] [0; 0; 1; 1] 1
      + false_negative [0; 1; 1; 1] [0; 0; 1; 1] 1 /\
  nth_error (iou_per_class scenario_report) 1
  = Some (np.true_divide
            (true_positive [0; 1; 1; 1] [0; 0; 1; 1] 1)
            (true_positive [0; 1; 1; 1] [0; 0; 1; 1] 1
             + false_positive [0; 1; 1; 1] [0; 0; 1; 1] 1
             + false_negative [0; 1; 1; 1] [0; 0; 1; 1] 1)).
Proof.
  apply (iou_is_tp_over_tp_fp_fn
           default_module scenario_pred scenario_gt scenario_report
           [0; 1; 1; 1] [0; 0; 1; 1] 1%nat 1);
    reflexivity.
Defined.

(** Quotients of counts as rationals. *)
Lemma true_divide_value a b :
  0 < b ->
  exists q, np.true_divide a b = Finite q /\ (q == a # Z.to_pos b)%Q.
Proof.
  intros Hb.
  destruct (np_facts.true_divide_finite a b) as (q & Hq & Hv); [lia|].
  exists q. split; [exact Hq|]. rewrite Hv.
  unfold Qeq, Qdiv, Qmult, Qinv, inject_Z. destruct b; simpl; lia.
Qed.

Lemma true_divide_unit a b :
  0 <= a <= b -> 0 < b -> in_unit_interval (np.true_divide a b).
Proof.
  intros Ha Hb. destruct (true_divide_value a b Hb) as (q & Hq & Hv).
  exists q. split; [exact Hq|]. rewrite Hv.
  unfold Qle; simpl. rewrite Z2Pos.id by lia. lia.
Qed.

Lemma true_divide_le a b a' b' :
  0 < b -> 0 < b' -> a * b' <= a' * b ->
  float_le (np.true_divide a b) (np.true_divide a' b').
Proof.
  intros Hb Hb' H.
  destruct (true_divide_value a b Hb) as (q & Hq & Hv).
  destruct (true_divide_value a' b' Hb') as (q' & Hq' & Hv').
  exists q, q'. repeat split; auto. rewrite Hv, Hv'.
  unfold Qle; simpl. rewrite !Z2Pos.id by lia. exact H.
Qed.

Lemma zero_in_unit_interval : in_unit_interval (Finite 0).
Proof. exists 0%Q. split; [reflexivity|]. split; discriminate. Qed.

(** The sum and the mean of a list of floats that are numbers. *)
Lemma fold_add_finite (qs : list Q) (a : Q) :
  exists s, fold_left np.add (map Finite qs) (Finite a) = Finite s /\
            (s == a + fold_right Qplus 0 qs)%Q.
Proof.
  revert a; induction qs as [|q qs IH]; intros a; simpl.
  - exists a. split; [reflexivity | ring].
  - destruct (IH (Qred (a + q))) as (s & Hs & Hv).
    exists s. split; [exact Hs|]. rewrite Hv, Qred_correct. ring.
Qed.

Lemma mean_finite (q : Q) (qs : list Q) :
  exists m, np.mean (map Finite (q :: qs)) = Finite m /\
            (m == fold_right Qplus 0 (q :: qs)
                  / inject_Z (Z.of_nat (length (q :: qs))))%Q.
Proof.
  unfold np.mean.
  change (map Finite (q :: qs)) with (Finite q :: map Finite qs).
  destruct (fold_add_finite (q :: qs) 0) as (s & Hs & Hv).
  change (map Finite (q :: qs)) with (Finite q :: map Finite qs) in Hs.
  rewrite Hs. unfold np.over_count. eexists. split; [reflexivity|].
  cbn [length]. rewrite Qred_correct, Hv, length_map. now rewrite Qplus_0_l.
Qed.

Lemma unit_interval_list l :
  Forall in_unit_interval l ->
  exists qs, l = map Finite qs /\ Forall (fun q => 0 <= q <= 1)%Q qs.
Proof.
  induction 1 as [|x l (q & -> & Hq) _ (qs & -> & Hqs)].
  - now exists [].
  - exists (q :: qs). split; [reflexivity | now constructor].
Qed.

Lemma sum_between (qs : list Q) :
  Forall (fun q => 0 <= q <= 1)%Q qs ->
  (0 <= fold_right Qplus 0 qs
   /\ fold_right Qplus 0 qs <= inject_Z (Z.of_nat (length qs)))%Q.
Proof.
  induction 1 as [|q qs [H0 H1] _ [IH0 IH1]].
  - simpl. split; discriminate.
  - cbn [fold_right length]. rewrite Nat2Z.inj_succ, <- Z.add_1_l, inject_Z_plus.
    split.
    + apply (Qle_trans _ (0 + 0)); [discriminate|].
      now apply Qplus_le_compat.
    + now apply Qplus_le_compat.
Qed.

Lemma mean_in_unit_interval l :
  l <> [] -> Forall in_unit_interval l -> in_unit_interval (np.mean l).
Proof.
  intros Hne Hall. destruct (unit_interval_list l Hall) as (qs & -> & Hqs).
  destruct qs as [|q qs]; [now destruct Hne|].
  destruct (mean_finite q qs) as (m & Hm & Hv).
  exists m. split; [exact Hm|]. rewrite Hv.
  destruct (sum_between (q :: qs) Hqs) as [H0 H1].
  assert (Hn : (0 < inject_Z (Z.of_nat (length (q :: qs))))%Q).
  { unfold Qlt, inject_Z; simpl. lia. }
  split.
  - apply Qle_shift_div_l; [exact Hn|]. now rewrite Qmult_0_l.
  - apply Qle_shift_div_r; [exact Hn|]. now rewrite Qmult_1_l.
Qed.

Lemma sum_le_length m : np.sum m <= Z.of_nat (length m).
Proof.
  induction m as [|b m IH]; [unfold np.sum; simpl; lia|].
  rewrite np_facts.sum_cons. cbn [length]. destruct b; simpl Z.b2z; lia.
Qed.

Section RatioFacts.
Variables pred gt : list Z.
Hypothesis same_length : length pred = length gt.

Lemma class_iou_unit c :
  In c (classes pred gt) -> in_unit_interval (class_iou pred gt c).
Proof.
  intros Hc. unfold class_iou.
  pose proof (union_positive _ _ same_length c Hc) as Hu.
  pose proof (union_count _ _ same_length c) as Hn.
  destruct (counts_nonneg _ _ same_length c) as (Ht & Hp & Hf).
  apply true_divide_unit; [|exact Hu].
  fold (true_positive pred gt c). lia.
Qed.

Lemma class_accuracy_unit c : in_unit_interval (class_accuracy pred gt c).
Proof.
  unfold class_accuracy.
  destruct (Z.ltb_spec 0 (np.sum (gt_cls gt c))) as [Hpos|_];
    [|apply zero_in_unit_interval].
  destruct (counts_nonneg _ _ same_length c) as (Ht & _ & Hf).
  unfold false_negative in Hf.
  apply true_divide_unit; [lia | exact Hpos].
Qed.

Lemma class_recall_unit c : in_unit_interval (class_recall pred gt c).
Proof. rewrite <- accuracy_is_recall. apply class_accuracy_unit. Qed.

Lemma class_precision_unit c : in_unit_interval (class_precision pred gt c).
Proof.
  unfold class_precision.
  destruct (Z.ltb_spec 0 (true_positive pred gt c + false_positive pred gt c))
    as [Hpos|_]; [|apply zero_in_unit_interval].
  destruct (counts_nonneg _ _ same_length c) as (Ht & Hp & _).
  apply true_divide_unit; [lia | exact Hpos].
Qed.

Lemma overall_accuracy_unit :
  gt <> [] -> in_unit_interval (overall_accuracy pred gt).
Proof.
  intros Hne. unfold overall_accuracy.
  pose proof (np_facts.sum_nonneg (np.eq_array pred gt)).
  pose proof (sum_le_length (np.eq_array pred gt)) as Hle.
  unfold np.eq_array in Hle at 2. rewrite map2_length, same_length in Hle
    by exact same_length.
  apply true_divide_unit; [lia|].
  destruct gt; [congruence | simpl; lia].
Qed.

Lemma iou_le_precision c :
  In c (classes pred gt) ->
  float_le (class_iou pred gt c) (class_precision pred gt c).
Proof.
  intros Hc. unfold class_iou, class_precision.
  pose proof (union_positive _ _ same_length c Hc) as Hu.
  pose proof (union_count _ _ same_length c) as Hn.
  destruct (counts_nonneg _ _ same_length c) as (Ht & Hp & Hf).
  fold (true_positive pred gt c).
  destruct (Z.ltb_spec 0 (true_positive pred gt c + false_positive pred gt c))
    as [Hpos|Hz].
  - apply true_divide_le; [exact Hu | exact Hpos | nia].
  - replace (true_positive pred gt c) with 0 by lia.
    rewrite np_facts.true_divide_zero by exact Hu.
    exists 0%Q, 0%Q. repeat split. discriminate.
Qed.

Lemma iou_le_recall c :
  In c (classes pred gt) ->
  float_le (class_iou pred gt c) (class_recall pred gt c).
Proof.
  intros Hc. unfold class_iou, class_recall.
  pose proof (union_positive _ _ same_length c Hc) as Hu.
  pose proof (union_count _ _ same_length c) as Hn.
  destruct (counts_nonneg _ _ same_length c) as (Ht & Hp & Hf).
  fold (true_positive pred gt c).
  destruct (Z.ltb_spec 0 (true_positive pred gt c + false_negative pred gt c))
    as [Hpos|Hz].
  - apply true_divide_le; [exact Hu | exact Hpos | nia].
  - replace (true_positive pred gt c) with 0 by lia.
    rewrite np_facts.true_divide_zero by exact Hu.
    exists 0%Q, 0%Q. repeat split. discriminate.
Qed.
End RatioFacts.

Lemma guarded_mean_unit l :
  Forall in_unit_interval l ->
  in_unit_interval
    (match l with [] => Finite 0 | x :: r => np.mean (x :: r) end).
Proof.
  intros Hall. destruct l as [|x l]; [apply zero_in_unit_interval|].
  apply mean_in_unit_interval; [discriminate | exact Hall].
Qed.

(** X2: with at least one evaluated pixel, every number of the report
    lies between 0 and 1: the mean IoU, the overall accuracy and every
    entry of the four per-class vectors.  None is infinite or [nan]. *)
Theorem report_in_unit_interval self pred_mask gt_mask :
  shape pred_mask = shape gt_mask ->
  well_shaped pred_mask -> well_shaped gt_mask ->
  evaluated_pixels (ignore_index self) (data pred_mask) (data gt_mask) <> [] ->
  exists out,
    metrics_of_class_mask self pred_mask gt_mask = Some out /\
    in_unit_interval (iou out) /\
    in_unit_interval (acc out) /\
    Forall in_unit_interval (iou_per_class out) /\
    Forall in_unit_interval (acc_per_class out) /\
    Forall in_unit_interval (precision_per_class out) /\
    Forall in_unit_interval (recall_per_class out).
Proof.
  intros E Wp Wg Hne.
  destruct (same_shape_returns self _ _ E) as (out & Hout).
  exists out. split; [exact Hout|].
  destruct (call_on_selected self _ _ out _ _ E Wp Wg Hout
              (selected_pred_eq self _ _ E) (selected_gt_eq self _))
    as (Ls & -> & Hc).
  set (sp := torch.select (data pred_mask) _) in *.
  set (sg := torch.select (data gt_mask) _) in *.
  assert (Hsg : sg <> []).
  { intros Hnil. rewrite Hnil in Hc. destruct sp; simpl in Hc; congruence. }
  assert (Hious : Forall in_unit_interval
                         (map (class_iou sp sg) (classes sp sg))).
  { apply Forall_map, Forall_forall. intros c Hin.
    now apply class_iou_unit. }
  unfold metrics_of_selected, mean_iou.
  rewrite (class_loop_maps _ _ Ls).
  cbn [iou acc acc_per_class iou_per_class precision_per_class
       recall_per_class pc_iou pc_accuracy pc_precision pc_recall].
  repeat split.
  - now apply guarded_mean_unit.
  - now apply overall_accuracy_unit.
  - exact Hious.
  - apply Forall_map, Forall_forall. intros c _.
    now apply class_accuracy_unit.
  - apply Forall_map, Forall_forall. intros c _.
    now apply class_precision_unit.
  - apply Forall_map, Forall_forall. intros c _.
    now apply class_recall_unit.
Qed.

Lemma report_in_unit_interval_witness :
  exists out,
    metrics_of_class_mask default_module partly_ignored_pred partly_ignored_gt
    = Some out /\
    in_unit_interval (iou out) /\
    in_unit_interval (acc out) /\
    Forall in_unit_interval (iou_per_class out) /\
    Forall in_unit_interval (acc_per_class out) /\
    Forall in_unit_interval (precision_per_class out) /\
    Forall in_unit_interval (recall_per_class out).
Proof.
  apply (report_in_unit_interval
           default_module partly_ignored_pred partly_ignored_gt);
    try reflexivity.
  vm_compute. discriminate.
Defined.

(** X3: the IoU entry of a class never exceeds its precision entry nor
    its recall entry. *)
Theorem iou_at_most_precision_and_recall
        self pred_mask gt_mask out i x p r :
  shape pred_mask = shape gt_mask ->
  well_shaped pred_mask -> well_shaped gt_mask ->
  metrics_of_class_mask self pred_mask gt_mask = Some out ->
  nth_error (iou_per_class out) i = Some x ->
  nth_error (precision_per_class out) i = Some p ->
  nth_error (recall_per_class out) i = Some r ->
  float_le x p /\ float_le x r.
Proof.
  intros E Wp Wg Hout.
  destruct (call_on_selected self _ _ out _ _ E Wp Wg Hout
              (selected_pred_eq self _ _ E) (selected_gt_eq self _))
    as (Ls & -> & _).
  unfold metrics_of_selected; simpl.
  rewrite (class_loop_maps _ _ Ls); simpl.
  rewrite !nth_error_map.
  destruct (nth_error (classes _ _) i) as [c|] eqn:Hi; simpl;
    [|discriminate].
  apply nth_error_In in Hi.
  intros [= <-] [= <-] [= <-].
  split; [now apply iou_le_precision | now apply iou_le_recall].
Qed.

Lemma iou_at_most_precision_and_recall_witness :
  float_le (Finite (2 # 3)) (Finite (2 # 3)) /\
  float_le (Finite (2 # 3)) (Finite 1).
Proof.
  apply (iou_at_most_precision_and_recall
           default_module scenario_pred scenario_gt scenario_report 1%nat);
    reflexivity.
Defined.

(** Sums over the classes of a universe. *)
Lemma Zsum_map_add {A} (f g : A -> Z) l :
  Zsum (map (fun a => f a + g a) l) = Zsum (map f l) + Zsum (map g l).
Proof. induction l as [|a l IH]; simpl; lia. Qed.

Lemma Zsum_map_sub {A} (f g : A -> Z) l :
  Zsum (map (fun a => f a - g a) l) = Zsum (map f l) - Zsum (map g l).
Proof. induction l as [|a l IH]; simpl; lia. Qed.

Lemma Zsum_map_zero {A} (f : A -> Z) l :
  (forall a, In a l -> f a = 0) -> Zsum (map f l) = 0.
Proof.
  induction l as [|a l IH]; intros H; simpl; [reflexivity|].
  rewrite (H a) by (now left). rewrite IH; [reflexivity|].
  intros b Hb. apply H. now right.
Qed.

Lemma indicator_sum cs x :
  NoDup cs -> In x cs -> Zsum (map (fun c => Z.b2z (x =? c)) cs) = 1.
Proof.
  induction 1 as [|c cs Hnotin Hnd IH]; intros Hin; [destruct Hin|].
  simpl. destruct (Z.eqb_spec x c) as [->|Hne].
  - rewrite Zsum_map_zero; [reflexivity|].
    intros a Ha. destruct (Z.eqb_spec c a); [congruence | reflexivity].
  - destruct Hin as [->|Hin]; [congruence|]. rewrite IH; auto.
Qed.

Lemma matching_indicator_sum cs x y :
  NoDup cs -> In x cs ->
  Zsum (map (fun c => Z.b2z ((x =? c) && (y =? c))) cs) = Z.b2z (x =? y).
Proof.
  intros Hnd Hin. destruct (Z.eqb_spec x y) as [->|Hne].
  - rewrite (map_ext _ (fun c => Z.b2z (y =? c)))
      by (intros c; now rewrite andb_diag).
    now apply indicator_sum.
  - apply Zsum_map_zero. intros c _.
    destruct (Z.eqb_spec x c), (Z.eqb_spec y c); simpl; congruence.
Qed.

Lemma occurrences_sum cs p :
  NoDup cs -> incl p cs ->
  Zsum (map (fun c => np.sum (np.eq_scalar p c)) cs) = Z.of_nat (length p).
Proof.
  intros Hnd. induction p as [|x p IH]; intros Hincl.
  - apply Zsum_map_zero. reflexivity.
  - erewrite map_ext;
      [|intros c; change (np.eq_scalar (x :: p) c)
                    with ((x =? c) :: np.eq_scalar p c);
        apply np_facts.sum_cons].
    rewrite Zsum_map_add, indicator_sum, IH; cbn [length]; auto.
    + lia.
    + intros a Ha. apply Hincl. now right.
    + apply Hincl. now left.
Qed.

Lemma true_positive_sum cs p g :
  NoDup cs -> incl p cs -> length p = length g ->
  Zsum (map (true_positive p g) cs) = np.sum (np.eq_array p g).
Proof.
  intros Hnd. revert g. induction p as [|x p IH]; intros [|y g] Hincl E;
    try discriminate E.
  - apply Zsum_map_zero. reflexivity.
  - injection E as E.
    erewrite map_ext;
      [|intros c;
        change (true_positive (x :: p) (y :: g) c)
          with (np.sum (((x =? c) && (y =? c)) :: intersection p g c));
        apply np_facts.sum_cons].
    rewrite Zsum_map_add, matching_indicator_sum; auto.
    + change (np.eq_array (x :: p) (y :: g))
        with ((x =? y) :: np.eq_array p g).
      rewrite np_facts.sum_cons. f_equal. apply IH; auto.
      intros a Ha. apply Hincl. now right.
    + apply Hincl. now left.
Qed.

Lemma classes_incl_pred p g : incl p (classes p g).
Proof. intros a Ha. apply classes_In. now left. Qed.

Lemma classes_incl_gt p g : incl g (classes p g).
Proof. intros a Ha. apply classes_In. now right. Qed.

Lemma classes_NoDup p g : NoDup (classes p g).
Proof. apply np_facts.sorted_NoDup, classes_sorted. Qed.

(** X4: summed over the class universe, the true positives are the
    correctly predicted evaluated pixels, and the false positives and the
    false negatives are each the wrongly predicted evaluated pixels. *)
Theorem confusion_counts_add_up self pred_mask gt_mask sp sg :
  shape pred_mask = shape gt_mask ->
  well_shaped pred_mask -> well_shaped gt_mask ->
  selected_pred self pred_mask gt_mask = Some sp ->
  selected_gt self gt_mask = Some sg ->
  let evaluated :=
    Z.of_nat (length (evaluated_pixels (ignore_index self)
                                       (data pred_mask) (data gt_mask))) in
  let correct :=
    Z.of_nat (length (correct_pixels (ignore_index self)
                                     (data pred_mask) (data gt_mask))) in
  Zsum (map (true_positive sp sg) (classes sp sg)) = correct /\
  Zsum (map (false_positive sp sg) (classes sp sg)) = evaluated - correct /\
  Zsum (map (false_negative sp sg) (classes sp sg)) = evaluated - correct.
Proof.
  intros E Wp Wg Hsp Hsg evaluated correct.
  destruct (same_shape_returns self _ _ E) as (out & Hout).
  destruct (call_on_selected self _ _ out _ _ E Wp Wg Hout Hsp Hsg)
    as (Ls & _ & Hc).
  assert (Htp : Zsum (map (true_positive sp sg) (classes sp sg)) = correct).
  { rewrite (true_positive_sum (classes sp sg) sp sg
               (classes_NoDup sp sg) (classes_incl_pred sp sg) Ls).
    rewrite sum_eq_array, Hc. reflexivity. }
  assert (Hn : Z.of_nat (length sp) = evaluated).
  { unfold evaluated. rewrite <- Hc, length_combine. lia. }
  split; [exact Htp|]. split.
  - unfold false_positive, pred_cls.
    rewrite (Zsum_map_sub (fun c => np.sum (np.eq_scalar sp c))
                          (true_positive sp sg)).
    rewrite occurrences_sum, Htp, Hn;
      [reflexivity | apply classes_NoDup | apply classes_incl_pred].
  - unfold false_negative, gt_cls.
    rewrite (Zsum_map_sub (fun c => np.sum (np.eq_scalar sg c))
                          (true_positive sp sg)).
    rewrite occurrences_sum, Htp, <- Ls, Hn;
      [reflexivity | apply classes_NoDup | apply classes_incl_gt].
Qed.

Lemma confusion_counts_add_up_witness :
  let evaluated :=
    Z.of_nat (length (evaluated_pixels (ignore_index default_module)
                                       (data partly_ignored_pred)
                                       (data partly_ignored_gt))) in
  let correct :=
    Z.of_nat (length (correct_pixels (ignore_index default_module)
                                     (data partly_ignored_pred)
                                     (data partly_ignored_gt))) in
  Zsum (map (true_positive [0; 1; 1] [0; 5; 1]) (classes [0; 1; 1] [0; 5; 1]))
  = correct /\
  Zsum (map (false_positive [0; 1; 1] [0; 5; 1]) (classes [0; 1; 1] [0; 5; 1]))
  = evaluated - correct /\
  Zsum (map (false_negative [0; 1; 1] [0; 5; 1]) (classes [0; 1; 1] [0; 5; 1]))
  = evaluated - correct.
Proof.
  apply (confusion_counts_add_up
           default_module partly_ignored_pred partly_ignored_gt
           [0; 1; 1] [0; 5; 1]);
    reflexivity.
Defined.

Lemma filter_all_length {A} (f : A -> bool) l :
  length (filter f l) = length l <-> Forall (fun a => f a = true) l.
Proof.
  induction l as [|a l IH]; simpl.
  - split; [constructor | reflexivity].
  - pose proof (filter_length_le f l) as Hle.
    destruct (f a) eqn:Hf; simpl.
    + split.
      * intros [= H]. constructor; [exact Hf | now apply IH].
      * intros H. inversion H; subst. f_equal. now apply IH.
    + split; [lia|]. intros H. inversion H; congruence.
Qed.

(** X8: with at least one evaluated pixel, the overall accuracy is 1
    exactly when the prediction is the ground truth at every evaluated
    pixel. *)
Theorem overall_accuracy_one_iff_all_correct self pred_mask gt_mask out :
  shape pred_mask = shape gt_mask ->
  well_shaped pred_mask -> well_shaped gt_mask ->
  evaluated_pixels (ignore_index self) (data pred_mask) (data gt_mask) <> [] ->
  metrics_of_class_mask self pred_mask gt_mask = Some out ->
  acc out = Finite 1 <->
  Forall (fun pg => fst pg = snd pg)
         (evaluated_pixels (ignore_index self)
                           (data pred_mask) (data gt_mask)).
Proof.
  intros E Wp Wg Hne Hout.
  destruct (call_on_selected self _ _ out _ _ E Wp Wg Hout
              (selected_pred_eq self _ _ E) (selected_gt_eq self _))
    as (Ls & -> & Hc).
  set (sp := torch.select (data pred_mask) _) in *.
  set (sg := torch.select (data gt_mask) _) in *.
  set (ev := evaluated_pixels _ _ _) in *.
  assert (Hn : length sg = length ev)
    by (rewrite <- Hc, length_combine; lia).
  assert (Hpos : 0 < Z.of_nat (length sg)).
  { rewrite Hn. clearbody ev. destruct ev; [congruence | simpl; lia]. }
  unfold metrics_of_selected, overall_accuracy.
  cbn [acc]. rewrite sum_eq_array, Hc.
  assert (Hall : Forall (fun pg => fst pg = snd pg) ev
                 <-> length (filter (fun pg => fst pg =? snd pg) ev)
                     = length ev).
  { rewrite filter_all_length. split; apply Forall_impl; intros pg;
      apply Z.eqb_eq. }
  rewrite Hall, <- Hn. split.
  - intros H1.
    destruct (true_divide_value
                (Z.of_nat (length (filter (fun pg => fst pg =? snd pg) ev)))
                (Z.of_nat (length sg)) Hpos) as (q & Hq & Hv).
    rewrite H1 in Hq. injection Hq as <-.
    unfold Qeq in Hv; simpl in Hv. rewrite Z2Pos.id in Hv by lia. lia.
  - intros ->. now apply np_facts.true_divide_self.
Qed.

Lemma overall_accuracy_one_iff_all_correct_witness :
  acc scenario_report = Finite 1 <->
  Forall (fun pg => fst pg = snd pg)
         (evaluated_pixels (ignore_index default_module)
                           (data scenario_pred) (data scenario_gt)).
Proof.
  apply (overall_accuracy_one_iff_all_correct
           default_module scenario_pred scenario_gt scenario_report);
    try reflexivity.
  vm_compute. discriminate.
Defined.

(** Two ascending lists with the same members are one list. *)
Lemma sorted_same_members l l' :
  StronglySorted Z.lt l -> StronglySorted Z.lt l' ->
  (forall c, In c l <-> In c l') -> l = l'.
Proof.
  intros Hl; revert l'.
  induction Hl as [|a l Hs IH Ha]; intros l' Hl' Hm.
  - destruct l' as [|b l']; [reflexivity|].
    destruct (proj2 (Hm b)). now left.
  - destruct Hl' as [|b l' Hs' Hb].
    + destruct (proj1 (Hm a)). now left.
    + rewrite Forall_forall in Ha, Hb.
      assert (a = b).
      { destruct (proj1 (Hm a) (or_introl eq_refl)) as [<-|Hin];
          [reflexivity|].
        destruct (proj2 (Hm b) (or_introl eq_refl)) as [<-|Hin'];
          [reflexivity|].
        specialize (Ha _ Hin'). specialize (Hb _ Hin). lia. }
      subst b. f_equal. apply IH; [exact Hs'|].
      intros c. split; intros Hc.
      * destruct (proj1 (Hm c) (or_intror Hc)) as [<-|H]; [|exact H].
        specialize (Ha _ Hc). lia.
      * destruct (proj2 (Hm c) (or_intror Hc)) as [<-|H]; [|exact H].
        specialize (Hb _ Hc). lia.
Qed.

Lemma classes_same_members p g p' g' :
  (forall c, In c p \/ In c g <-> In c p' \/ In c g') ->
  classes p g = classes p' g'.
Proof.
  intros H. apply sorted_same_members; try apply classes_sorted.
  intros c. now rewrite !classes_In.
Qed.

Lemma map2_comm {A C} (f : A -> A -> C) l m :
  (forall a b, f a b = f b a) -> map2 f l m = map2 f m l.
Proof.
  intros Hf. revert m; induction l as [|a l IH]; intros [|b m]; simpl; auto.
  now rewrite Hf, IH.
Qed.

(** Exchanging the roles of the two selected arrays. *)
Section Exchange.
Variables pred gt : list Z.
Hypothesis same_length : length pred = length gt.

Lemma intersection_exchange c : intersection gt pred c = intersection pred gt c.
Proof. apply map2_comm, andb_comm. Qed.

Lemma union_exchange c : union gt pred c = union pred gt c.
Proof. apply map2_comm, orb_comm. Qed.

Lemma classes_exchange : classes gt pred = classes pred gt.
Proof. apply classes_same_members. tauto. Qed.

Lemma class_iou_exchange c : class_iou gt pred c = class_iou pred gt c.
Proof.
  unfold class_iou. now rewrite intersection_exchange, union_exchange.
Qed.

Lemma class_precision_exchange c :
  class_precision gt pred c = class_recall pred gt c.
Proof.
  unfold class_precision, class_recall, false_positive, false_negative,
    true_positive.
  now rewrite intersection_exchange.
Qed.

Lemma class_recall_exchange c :
  class_recall gt pred c = class_precision pred gt c.
Proof.
  unfold class_precision, class_recall, false_positive, false_negative,
    true_positive.
  now rewrite intersection_exchange.
Qed.

Lemma metrics_exchange :
  metrics_of_selected gt pred
  = let out := metrics_of_selected pred gt in
    mk_metrics (iou out) (acc out)
               (precision_per_class out) (iou_per_class out)
               (recall_per_class out) (precision_per_class out).
Proof.
  unfold metrics_of_selected, mean_iou, overall_accuracy.
  rewrite (class_loop_maps _ _ same_length),
    (class_loop_maps _ _ (eq_sym same_length)), classes_exchange.
  cbn [iou acc acc_per_class iou_per_class precision_per_class
       recall_per_class pc_iou pc_accuracy pc_precision pc_recall].
  rewrite (map_ext _ _ class_iou_exchange),
    (map_ext _ _ class_precision_exchange),
    (map_ext _ _ class_recall_exchange).
  rewrite (map_ext (class_accuracy gt pred) (class_precision pred gt))
    by (intros c; rewrite accuracy_is_recall; apply class_recall_exchange).
  unfold np.eq_array. rewrite (map2_comm Z.eqb gt pred Z.eqb_sym).
  now rewrite same_length.
Qed.
End Exchange.

(** X5: when neither mask holds the ignore value, calling with the two
    masks exchanged gives the same mean IoU, overall accuracy and IoU
    vector, while precision and recall trade places (and the accuracy
    vector becomes the former precision vector). *)
Theorem exchanged_masks_swap_precision_and_recall
        self pred_mask gt_mask out :
  shape pred_mask = shape gt_mask ->
  well_shaped pred_mask -> well_shaped gt_mask ->
  Forall (fun v => v <> ignore_index self) (data pred_mask) ->
  Forall (fun v => v <> ignore_index self) (data gt_mask) ->
  metrics_of_class_mask self pred_mask gt_mask = Some out ->
  metrics_of_class_mask self gt_mask pred_mask
  = Some (mk_metrics (iou out) (acc out)
                     (precision_per_class out) (iou_per_class out)
                     (recall_per_class out) (precision_per_class out)).
Proof.
  intros E Wp Wg Fp Fg Hout.
  pose proof (same_data_length _ _ E Wp Wg) as L.
  assert (K : forall l, Forall (fun v => v <> ignore_index self) l ->
                        Forall (fun y => kept self y = true) l).
  { intros l. apply Forall_impl. intros g Hg. unfold kept.
    now destruct (Z.eqb_spec g (ignore_index self)). }
  rewrite (metrics_of_class_mask_eq self _ _ E) in Hout.
  rewrite (metrics_of_class_mask_eq self _ _ (eq_sym E)).
  rewrite !select_everything in * by auto.
  injection Hout as <-. f_equal. now apply metrics_exchange.
Qed.

Lemma exchanged_masks_swap_precision_and_recall_witness :
  metrics_of_class_mask default_module scenario_gt scenario_pred
  = Some (mk_metrics (iou scenario_report) (acc scenario_report)
                     (precision_per_class scenario_report)
                     (iou_per_class scenario_report)
                     (recall_per_class scenario_report)
                     (precision_per_class scenario_report)).
Proof.
  apply (exchanged_masks_swap_precision_and_recall
           default_module scenario_pred scenario_gt scenario_report);
    try reflexivity.
  - repeat constructor; vm_compute; discriminate.
  - repeat constructor; vm_compute; discriminate.
Defined.

(** The counts of a call in terms of the list of evaluated pixels. *)
Section PairCounts.
Variables pred gt : list Z.
Hypothesis same_length : length pred = length gt.

Lemma pred_count_pairs c :
  np.sum (pred_cls pred c)
  = np.sum (map (fun pg => fst pg =? c) (combine pred gt)).
Proof.
  unfold pred_cls, np.eq_scalar. revert same_length. generalize gt as g.
  clear. induction pred as [|x p IH]; intros [|y g] E;
    try discriminate E; [reflexivity|].
  injection E as E. simpl. now rewrite !np_facts.sum_cons, (IH g E).
Qed.

Lemma gt_count_pairs c :
  np.sum (gt_cls gt c)
  = np.sum (map (fun pg => snd pg =? c) (combine pred gt)).
Proof.
  unfold gt_cls, np.eq_scalar. revert same_length. generalize gt as g.
  clear. induction pred as [|x p IH]; intros [|y g] E;
    try discriminate E; [reflexivity|].
  injection E as E. simpl. now rewrite !np_facts.sum_cons, (IH g E).
Qed.

Lemma intersection_pairs c :
  np.sum (intersection pred gt c)
  = np.sum (map (fun pg => (fst pg =? c) && (snd pg =? c))
                (combine pred gt)).
Proof.
  unfold intersection, np.logical_and, pred_cls, gt_cls, np.eq_scalar.
  generalize gt as g. clear.
  induction pred as [|x p IH]; intros [|y g]; try reflexivity.
  simpl. now rewrite !np_facts.sum_cons, IH.
Qed.

Lemma union_pairs c :
  np.sum (union pred gt c)
  = np.sum (map (fun pg => (fst pg =? c) || (snd pg =? c))
                (combine pred gt)).
Proof.
  unfold union, np.logical_or, pred_cls, gt_cls, np.eq_scalar.
  generalize gt as g. clear.
  induction pred as [|x p IH]; intros [|y g]; try reflexivity.
  simpl. now rewrite !np_facts.sum_cons, IH.
Qed.

Lemma matches_pairs :
  np.sum (np.eq_array pred gt)
  = np.sum (map (fun pg => fst pg =? snd pg) (combine pred gt)).
Proof.
  unfold np.eq_array. generalize gt as g. clear.
  induction pred as [|x p IH]; intros [|y g]; try reflexivity.
  simpl. now rewrite !np_facts.sum_cons, IH.
Qed.

Lemma members_pairs c :
  In c pred \/ In c gt
  <-> exists pg, In pg (combine pred gt) /\ (c = fst pg \/ c = snd pg).
Proof.
  revert same_length. generalize gt as g. clear.
  induction pred as [|x p IH]; intros [|y g] E; try discriminate E.
  - simpl. split; [tauto | intros (pg & [] & _)].
  - injection E as E. specialize (IH g E). simpl. split.
    + intros [[<-|Hp]|[<-|Hg]].
      * exists (x, y). auto.
      * destruct (proj1 IH (or_introl Hp)) as (pg & Hin & Hc).
        exists pg. auto.
      * exists (x, y). auto.
      * destruct (proj1 IH (or_intror Hg)) as (pg & Hin & Hc).
        exists pg. auto.
    + intros (pg & [<-|Hin] & Hc); simpl in Hc.
      * destruct Hc as [->| ->]; auto.
      * destruct (proj2 IH (ex_intro _ pg (conj Hin Hc))); auto.
Qed.
End PairCounts.

Lemma sum_map_permutation {A} (f : A -> bool) l l' :
  Permutation l l' -> np.sum (map f l) = np.sum (map f l').
Proof.
  induction 1 as [|a l l' _ IH|a b l|l l' l'' _ IH1 _ IH2]; simpl.
  - reflexivity.
  - now rewrite !np_facts.sum_cons, IH.
  - rewrite !np_facts.sum_cons. lia.
  - congruence.
Qed.

Lemma filter_permutation {A} (f : A -> bool) l l' :
  Permutation l l' -> Permutation (filter f l) (filter f l').
Proof.
  induction 1 as [|a l l' _ IH|a b l|l l' l'' _ IH1 _ IH2]; simpl.
  - constructor.
  - destruct (f a); [now constructor | exact IH].
  - destruct (f a), (f b); try reflexivity. constructor.
  - now transitivity (filter f l').
Qed.

(** The report depends on the evaluated pixels only through how many
    there are of each pair of prediction and ground truth. *)
Lemma metrics_of_selected_permutation p g p' g' :
  length p = length g -> length p' = length g' ->
  Permutation (combine p g) (combine p' g') ->
  metrics_of_selected p g = metrics_of_selected p' g'.
Proof.
  intros L L' HP.
  assert (Hcls : classes p g = classes p' g').
  { apply classes_same_members. intros c.
    rewrite (members_pairs _ _ L), (members_pairs _ _ L').
    split; intros (pg & Hin & Hc); exists pg; split; auto.
    - now apply (Permutation_in _ HP).
    - now apply (Permutation_in _ (Permutation_sym HP)). }
  assert (Hlen : length g = length g').
  { apply Permutation_length in HP. rewrite !length_combine in HP. lia. }
  assert (Hiou : forall c, class_iou p g c = class_iou p' g' c).
  { intros c. unfold class_iou.
    now rewrite (intersection_pairs p g), (intersection_pairs p' g'),
      (union_pairs p g), (union_pairs p' g'),
      (sum_map_permutation _ _ _ HP),
      (sum_map_permutation (fun pg => (fst pg =? c) || (snd pg =? c)) _ _ HP). }
  assert (Htp : forall c, true_positive p g c = true_positive p' g' c).
  { intros c. unfold true_positive.
    now rewrite (intersection_pairs p g), (intersection_pairs p' g'),
      (sum_map_permutation _ _ _ HP). }
  assert (Hpc : forall c, np.sum (pred_cls p c) = np.sum (pred_cls p' c)).
  { intros c.
    now rewrite (pred_count_pairs _ _ L), (pred_count_pairs _ _ L'),
      (sum_map_permutation _ _ _ HP). }
  assert (Hgc : forall c, np.sum (gt_cls g c) = np.sum (gt_cls g' c)).
  { intros c.
    now rewrite (gt_count_pairs _ _ L), (gt_count_pairs _ _ L'),
      (sum_map_permutation _ _ _ HP). }
  unfold metrics_of_selected, mean_iou, overall_accuracy.
  rewrite (class_loop_maps _ _ L), (class_loop_maps _ _ L'), Hcls, Hlen.
  cbn [iou acc acc_per_class iou_per_class precision_per_class
       recall_per_class pc_iou pc_accuracy pc_precision pc_recall].
  rewrite (matches_pairs p g), (matches_pairs p' g'),
    (sum_map_permutation _ _ _ HP).
  rewrite (map_ext _ _ Hiou).
  rewrite (map_ext (class_accuracy p g) (class_accuracy p' g'))
    by (intros c; unfold class_accuracy; now rewrite Htp, Hgc).
  rewrite (map_ext (class_precision p g) (class_precision p' g'))
    by (intros c; unfold class_precision, false_positive;
        now rewrite Htp, Hpc).
  rewrite (map_ext (class_recall p g) (class_recall p' g'))
    by (intros c; unfold class_recall, false_negative;
        now rewrite Htp, Hgc).
  reflexivity.
Qed.

(** X6: the report does not depend on the order of the pixels: two calls
    whose pixels, as pairs of prediction and ground truth, are
    rearrangements of each other return the same report. *)
Theorem pixel_order_is_irrelevant
        self pred_mask gt_mask pred_mask' gt_mask' :
  shape pred_mask = shape gt_mask ->
  well_shaped pred_mask -> well_shaped gt_mask ->
  shape pred_mask' = shape gt_mask' ->
  well_shaped pred_mask' -> well_shaped gt_mask' ->
  Permutation (combine (data pred_mask) (data gt_mask))
              (combine (data pred_mask') (data gt_mask')) ->
  metrics_of_class_mask self pred_mask gt_mask
  = metrics_of_class_mask self pred_mask' gt_mask' /\
  exists out, metrics_of_class_mask self pred_mask gt_mask = Some out.
Proof.
  intros E Wp Wg E' Wp' Wg' HP.
  pose proof (same_data_length _ _ E Wp Wg) as L.
  pose proof (same_data_length _ _ E' Wp' Wg') as L'.
  rewrite (metrics_of_class_mask_eq self _ _ E),
    (metrics_of_class_mask_eq self _ _ E').
  split; [|eexists; reflexivity]. f_equal.
  apply metrics_of_selected_permutation.
  - now apply select_same_length.
  - now apply select_same_length.
  - rewrite !(select_combine (kept self)) by assumption.
    now apply filter_permutation.
Qed.

Lemma pixel_order_is_irrelevant_witness :
  metrics_of_class_mask default_module partly_ignored_pred partly_ignored_gt
  = metrics_of_class_mask default_module
      (mk_ndarray [1; 2; 2]%nat [1; 1; 0; 1])
      (mk_ndarray [1; 2; 2]%nat [1; 5; 0; -100]) /\
  exists out,
    metrics_of_class_mask default_module partly_ignored_pred partly_ignored_gt
    = Some out.
Proof.
  apply (pixel_order_is_irrelevant
           default_module partly_ignored_pred partly_ignored_gt
           (mk_ndarray [1; 2; 2]%nat [1; 1; 0; 1])
           (mk_ndarray [1; 2; 2]%nat [1; 5; 0; -100]));
    try reflexivity.
  simpl.
  apply (Permutation_cons_app [(1, 1); (1, 5)] [(1, -100)]).
  apply (Permutation_cons_app [(1, 1); (1, 5)] []).
  apply perm_swap.
Defined.

(* ------------------------------------------------------------------ *)
(** ** The argmax of the class scores *)

Lemma argmax_fold_range (get : nat -> Q) (C : nat) l best :
  0 <= fst best < Z.of_nat C -> Forall (fun c => (c < C)%nat) l ->
  0 <= fst (fold_left
              (fun (best : Z * Q) c =>
                 if Qle_bool (get c) (snd best) then best
                 else (Z.of_nat c, get c))
              l best) < Z.of_nat C.
Proof.
  revert best; induction l as [|c l IH]; intros best Hb Hl; simpl;
    [exact Hb|].
  inversion Hl as [|? ? Hc Hl']; subst. apply IH; [|exact Hl'].
  destruct (Qle_bool (get c) (snd best)); [exact Hb | simpl; lia].
Qed.

Lemma first_argmax_range get C :
  (0 < C)%nat -> 0 <= torch.first_argmax get C < Z.of_nat C.
Proof.
  intros HC. unfold torch.first_argmax. apply argmax_fold_range.
  - simpl. lia.
  - apply Forall_forall. intros c Hc. apply in_seq in Hc. lia.
Qed.

Lemma argmax_dim1_shape t N C rest :
  shape t = N :: C :: rest -> C <> 0%nat ->
  exists pm,
    torch.argmax_dim1 t = Some pm /\
    shape pm = N :: rest /\ well_shaped pm /\
    Forall (fun v => 0 <= v < Z.of_nat C) (data pm).
Proof.
  intros Hs HC. unfold torch.argmax_dim1. rewrite Hs.
  destruct (Nat.eqb_spec C 0) as [|_]; [contradiction|].
  eexists. split; [reflexivity|]. split; [reflexivity|]. split.
  - unfold well_shaped; cbn [data shape numel fold_right].
    rewrite flat_map_constant_length with (c := numel rest).
    + now rewrite length_seq.
    + intros n _. now rewrite length_map, length_seq.
  - cbn [data]. apply Forall_flat_map, Forall_forall. intros n _.
    apply Forall_map, Forall_forall. intros j _.
    apply first_argmax_range. lia.
Qed.

(** X7: on class scores of shape [(N, C, ...)] with [C > 0] and labels
    of shape [(N, ...)], [compute_metrics] returns a report, and every
    class of its universe is either a class index below [C] or the label
    of an evaluated pixel. *)
Theorem compute_metrics_on_matching_shapes
        self scores labels N C rest :
  shape scores = N :: C :: rest -> C <> 0%nat ->
  shape labels = N :: rest -> well_shaped labels ->
  exists out pm cs,
    compute_metrics self scores labels = Some out /\
    torch.argmax_dim1 scores = Some pm /\
    class_universe self pm labels = Some cs /\
    length (iou_per_class out) = length cs /\
    forall c, In c cs ->
              0 <= c < Z.of_nat C \/
              (In c (data labels) /\ c <> ignore_index self).
Proof.
  intros Hs HC Hl Wl.
  destruct (argmax_dim1_shape scores N C rest Hs HC)
    as (pm & Hpm & Hshape & Wpm & Hrange).
  assert (E : shape pm = shape labels) by congruence.
  pose proof (same_data_length _ _ E Wpm Wl) as L.
  exists (metrics_of_selected
            (torch.select (data pm) (map (kept self) (data labels)))
            (torch.select (data labels) (map (kept self) (data labels)))),
    pm, (classes
           (torch.select (data pm) (map (kept self) (data labels)))
           (torch.select (data labels) (map (kept self) (data labels)))).
  split.
  { unfold compute_metrics. rewrite Hpm.
    apply (metrics_of_class_mask_eq self _ _ E). }
  split; [exact Hpm|]. split.
  { unfold class_universe.
    now rewrite (selected_pred_eq self _ _ E), selected_gt_eq. }
  split.
  { unfold metrics_of_selected; cbn [iou_per_class].
    rewrite class_loop_maps by (now apply select_same_length).
    cbn [pc_iou]. apply length_map. }
  intros c Hc. apply classes_In in Hc.
  apply (select_members (kept self) _ _ c L) in Hc.
  destruct Hc as (j & p & g & Hp & Hg & Hk & [->| ->]).
  - left. rewrite Forall_forall in Hrange.
    eapply Hrange, nth_error_In, Hp.
  - right. split; [eapply nth_error_In, Hg|].
    unfold kept in Hk. now destruct (Z.eqb_spec g (ignore_index self)).
Qed.

Lemma compute_metrics_on_matching_shapes_witness :
  exists out pm cs,
    compute_metrics default_module scenario_scores partly_ignored_gt
    = Some out /\
    torch.argmax_dim1 scenario_scores = Some pm /\
    class_universe default_module pm partly_ignored_gt = Some cs /\
    length (iou_per_class out) = length cs /\
    forall c, In c cs ->
              0 <= c < Z.of_nat 2 \/
              (In c (data partly_ignored_gt)
               /\ c <> ignore_index default_module).
Proof.
  apply (compute_metrics_on_matching_shapes
           default_module scenario_scores partly_ignored_gt
           1%nat 2%nat [2; 2]%nat);
    try reflexivity.
  discriminate.
Defined.

Lemma argmax_fold_monotone (f : Q -> Q) (get get' : nat -> Q) l i v :
  (forall x y, Qle_bool (f x) (f y) = Qle_bool x y) ->
  (forall c, In c l -> get' c = f (get c)) ->
  fst (fold_left
         (fun (best : Z * Q) c =>
            if Qle_bool (get' c) (snd best) then best
            else (Z.of_nat c, get' c))
         l (i, f v))
  = fst (fold_left
           (fun (best : Z * Q) c =>
              if Qle_bool (get c) (snd best) then best
              else (Z.of_nat c, get c))
           l (i, v)).
Proof.
  intros Hf. revert i v; induction l as [|c l IH]; intros i v Hg; simpl;
    [reflexivity|].
  rewrite (Hg c) by (now left). rewrite Hf.
  destruct (Qle_bool (get c) v); apply IH; intros d Hd; apply Hg; now right.
Qed.

Lemma first_argmax_monotone (f : Q -> Q) (get get' : nat -> Q) C :
  (forall x y, Qle_bool (f x) (f y) = Qle_bool x y) ->
  (forall c, (c < C)%nat -> get' c = f (get c)) -> (0 < C)%nat ->
  torch.first_argmax get' C = torch.first_argmax get C.
Proof.
  intros Hf Hg HC. unfold torch.first_argmax.
  rewrite (Hg 0%nat HC). apply argmax_fold_monotone; [exact Hf|].
  intros c Hc. apply in_seq in Hc. apply Hg. lia.
Qed.

(** X9: the report depends on the class scores only through their order
    at each pixel: applying one order-preserving map to every score of a
    well-shaped tensor (a positive rescaling, a shift) changes nothing. *)
Theorem order_preserving_rescaling_is_irrelevant
        self scores labels (f : Q -> Q) :
  (forall x y, (f x <= f y)%Q <-> (x <= y)%Q) ->
  well_shaped scores ->
  compute_metrics self (mk_ndarray (shape scores) (map f (data scores)))
                  labels
  = compute_metrics self scores labels.
Proof.
  intros Hf W.
  assert (Hb : forall x y, Qle_bool (f x) (f y) = Qle_bool x y).
  { intros x y. destruct (Qle_bool x y) eqn:Hxy.
    - apply Qle_bool_iff, (proj2 (Hf x y)), Qle_bool_iff, Hxy.
    - destruct (Qle_bool (f x) (f y)) eqn:Hfxy; [|reflexivity].
      apply Qle_bool_iff in Hfxy. apply (proj1 (Hf x y)) in Hfxy.
      apply Qle_bool_iff in Hfxy. congruence. }
  unfold compute_metrics, torch.argmax_dim1; cbn [shape data].
  destruct (shape scores) as [|N [|C rest]] eqn:Hs; try reflexivity.
  destruct (Nat.eqb_spec C 0) as [|HC]; [reflexivity|].
  replace (flat_map _ (seq 0 N))
    with (flat_map
            (fun n =>
               map (fun j =>
                      torch.first_argmax
                        (fun c => nth ((n * C + c) * numel rest + j)
                                      (data scores) 0%Q) C)
                   (seq 0 (numel rest)))
            (seq 0 N)); [reflexivity|].
  rewrite !flat_map_concat_map. f_equal.
  apply map_ext_in. intros n Hn. apply in_seq in Hn.
  apply map_ext_in. intros j Hj. apply in_seq in Hj.
  symmetry. apply (first_argmax_monotone f); [exact Hb | | lia].
  intros c Hc.
  assert (Hidx : ((n * C + c) * numel rest + j < length (data scores))%nat).
  { unfold well_shaped in W. rewrite W, Hs. cbn [numel fold_right].
    fold (numel rest).
    assert (H1 : (S (n * C + c) <= N * C)%nat) by nia.
    assert (H2 : (S (n * C + c) * numel rest <= N * C * numel rest)%nat)
      by (apply Nat.mul_le_mono_r, H1).
    rewrite Nat.mul_assoc. simpl in H2. lia. }
  rewrite (nth_indep _ 0%Q (f 0%Q)) by (now rewrite length_map).
  apply map_nth.
Qed.

Lemma order_preserving_rescaling_is_irrelevant_witness :
  compute_metrics default_module
    (mk_ndarray (shape scenario_scores)
                (map (fun x => 2 * x + 1)%Q (data scenario_scores)))
    scenario_labels
  = compute_metrics default_module scenario_scores scenario_labels.
Proof.
  apply (order_preserving_rescaling_is_irrelevant
           default_module scenario_scores scenario_labels
           (fun x => 2 * x + 1)%Q).
  - intros x y. split; intros H.
    + apply (Qmult_le_l _ _ 2); [reflexivity|].
      apply (Qplus_le_l _ _ 1). exact H.
    + apply (Qplus_le_l _ _ 1).
      apply (Qmult_le_l _ _ 2); [reflexivity | exact H].
  - reflexivity.
Defined.

(* ------------------------------------------------------------------ *)
(** ** Properties of [check_required_flags] *)

Lemma is_none_string_true v : is_none_string v = true <-> v = CfgString "None".
Proof.
  destruct v as [s| | |]; simpl; try (split; [discriminate | discriminate]).
  rewrite String.eqb_eq. split; [now intros -> | now intros [= ->]].
Qed.

(** X10: the check returns exactly when every listed flag can be read
    and none of them is the string "None"; any other value, the null
    value included, passes. *)
Theorem check_required_flags_returns_iff required_flags config :
  check_required_flags required_flags config = Returns tt
  <-> Forall (flag_is_set config) required_flags.
Proof.
  induction required_flags as [|f rest IH]; simpl.
  - split; [constructor | reflexivity].
  - destruct (config f) as [v|e] eqn:Hf.
    + destruct (is_none_string v) eqn:Hv.
      * apply is_none_string_true in Hv. subst v. split; [discriminate|].
        intros H. inversion H as [|? ? (v & Hcfg & Hne) _]; subst.
        rewrite Hf in Hcfg. injection Hcfg as <-. now destruct Hne.
      * rewrite IH. split.
        -- intros H. constructor; [|exact H]. exists v. split; [exact Hf|].
           intros ->. discriminate Hv.
        -- intros H. now inversion H.
    + split; [discriminate|].
      intros H. inversion H as [|? ? (v & Hcfg & _) _]; subst.
      rewrite Hf in Hcfg. discriminate.
Qed.

(** X11: when the flags before some flag pass and that flag is the string
    "None", the check raises the error that names this flag, whatever
    follows it in the list. *)
Theorem check_required_flags_names_first_unset
        config (before after : list string) flag_name :
  Forall (flag_is_set config) before ->
  config flag_name = Returns (CfgString "None") ->
  check_required_flags (before ++ flag_name :: after) config
  = Raises (RuntimeError ("Flag --" ++ flag_name ++ " is required.")).
Proof.
  intros Hb Hf. induction Hb as [|f before (v & Hcfg & Hne) _ IH]; simpl.
  - now rewrite Hf.
  - rewrite Hcfg. destruct (is_none_string v) eqn:Hv; [|exact IH].
    apply is_none_string_true in Hv. contradiction.
Qed.

Lemma check_required_flags_names_first_unset_witness :
  check_required_flags
    (["root_dir"; "test_filepath"]%string
       ++ "checkpoint_path"%string :: [])
    (config_of [("root_dir", CfgString "data");
                ("test_filepath", CfgNone);
                ("checkpoint_path", CfgString "None")]%string)
  = Raises (RuntimeError
              ("Flag --" ++ "checkpoint_path" ++ " is required.")).
Proof.
  apply (check_required_flags_names_first_unset
           (config_of [("root_dir", CfgString "data");
                       ("test_filepath", CfgNone);
                       ("checkpoint_path", CfgString "None")]%string)
           ["root_dir"; "test_filepath"]%string [] "checkpoint_path"%string).
  - repeat constructor.
    + exists (CfgString "data"). split; [reflexivity | discriminate].
    + exists CfgNone. split; [reflexivity | discriminate].
  - reflexivity.
Defined.

(* ------------------------------------------------------------------ *)
(** ** Properties of [log_metrics] *)

Lemma append_eqb (s a b : string) :
  String.eqb (s ++ a) (s ++ b) = String.eqb a b.
Proof.
  induction s as [|c s IH]; simpl; [reflexivity|].
  now rewrite Ascii.eqb_refl, IH.
Qed.

Lemma str_eqb i j : String.eqb (str i) (str j) = Nat.eqb i j.
Proof.
  destruct (Nat.eqb_spec i j) as [->|Hne]; [apply String.eqb_refl|].
  apply String.eqb_neq. intros H. apply Hne.
  apply Unsigned.to_uint_inj.
  assert (Hs : Some (Nat.to_uint i) = Some (Nat.to_uint j)).
  { rewrite <- !NilEmpty.usu. unfold str in H. now rewrite H. }
  now injection Hs.
Qed.

Lemma fold_log {A} (name : A -> string) (value : A -> float64) l logged :
  fold_left (fun logged a => log (name a) (value a) logged) l logged
  = logged ++ map (fun a => (name a, value a)) l.
Proof.
  revert logged; induction l as [|a l IH]; intros logged; simpl.
  - now rewrite app_nil_r.
  - rewrite IH. unfold log. now rewrite <- app_assoc.
Qed.

Lemma log_per_class_eq stage kind values logged :
  log_per_class stage kind values logged
  = logged ++ map (fun sv => ((stage ++ fst sv)%string, snd sv))
                  (class_suffixes kind values).
Proof.
  unfold log_per_class, class_suffixes.
  rewrite (fold_log (fun iv => (stage ++ kind ++ str (fst iv))%string) snd).
  now rewrite map_map.
Qed.

Lemma log_metrics_eq self predictions labels stage loss logged :
  log_metrics self predictions labels stage loss logged
  = option_map (fun out => logged ++ metric_records stage loss out)
               (compute_metrics self predictions labels).
Proof.
  unfold log_metrics.
  destruct (compute_metrics self predictions labels) as [out|];
    [|reflexivity].
  simpl. f_equal. rewrite !log_per_class_eq. unfold log.
  unfold metric_records, metric_suffixes.
  rewrite !map_app. simpl. now rewrite <- !app_assoc.
Qed.

(** Looking a name up among the records of one call. *)
Lemma logged_value_records stage suffix loss out :
  logged_value (stage ++ suffix) (metric_records stage loss out)
  = option_map snd
      (find (fun sv => String.eqb (fst sv) suffix) (metric_suffixes loss out)).
Proof.
  unfold logged_value, metric_records.
  induction (metric_suffixes loss out) as [|[s v] l IH]; simpl;
    [reflexivity|].
  rewrite append_eqb. destruct (String.eqb s suffix); [reflexivity|].
  exact IH.
Qed.

Lemma find_class_suffix_from kind (values : list float64) k i :
  find (fun sv => String.eqb (fst sv) (kind ++ str i))
       (map (fun iv => ((kind ++ str (fst iv))%string, snd iv))
            (combine (seq k (length values)) values))
  = if (i <? k)%nat then None
    else option_map (fun v => ((kind ++ str i)%string, v))
                    (nth_error values (i - k)).
Proof.
  revert k; induction values as [|v values IH]; intros k; simpl.
  - destruct (i <? k)%nat; [reflexivity|]. now destruct (i - k)%nat.
  - rewrite append_eqb, str_eqb.
    destruct (Nat.eqb_spec k i) as [->|Hne].
    + rewrite Nat.ltb_irrefl, Nat.sub_diag. reflexivity.
    + rewrite IH.
      destruct (Nat.ltb_spec i k) as [Hlt|Hge].
      * destruct (Nat.ltb_spec i (S k)); [reflexivity | lia].
      * destruct (Nat.ltb_spec i (S k)); [lia|].
        replace (i - k)%nat with (S (i - S k)) by lia. reflexivity.
Qed.

Lemma find_class_suffix kind values i :
  find (fun sv => String.eqb (fst sv) (kind ++ str i))
       (class_suffixes kind values)
  = option_map (fun v => ((kind ++ str i)%string, v)) (nth_error values i).
Proof.
  unfold class_suffixes, enumerate.
  rewrite find_class_suffix_from. simpl. now rewrite Nat.sub_0_r.
Qed.

Lemma find_other_kind kind (key : string) values :
  (forall j, String.eqb (kind ++ str j) key = false) ->
  find (fun sv => String.eqb (fst sv) key) (class_suffixes kind values)
  = None.
Proof.
  intros H. unfold class_suffixes.
  induction (enumerate values) as [|[j v] l IH]; simpl; [reflexivity|].
  now rewrite H.
Qed.

Lemma find_app {A} (f : A -> bool) l l' :
  find f (l ++ l') = match find f l with Some a => Some a | None => find f l' end.
Proof.
  induction l as [|a l IH]; simpl; [reflexivity|].
  now destruct (f a).
Qed.

Lemma find_skip3 {A} (f : A -> bool) a b c l :
  f a = false -> f b = false -> f c = false ->
  find f ([a; b; c] ++ l) = find f l.
Proof. intros Ha Hb Hc. simpl. now rewrite Ha, Hb, Hc. Qed.

Lemma suffix_lookups loss out :
  let found key :=
    option_map snd (find (fun sv => String.eqb (fst sv) key)
                         (metric_suffixes loss out)) in
  found "_loss"%string = Some loss /\
  found "_aAcc"%string = Some (acc out) /\
  found "_mIoU"%string = Some (iou out) /\
  forall i,
    found ("_IoU_" ++ str i)%string = nth_error (iou_per_class out) i /\
    found ("_Acc_" ++ str i)%string = nth_error (acc_per_class out) i /\
    found ("_Precision_" ++ str i)%string
    = nth_error (precision_per_class out) i /\
    found ("_Recall_" ++ str i)%string = nth_error (recall_per_class out) i.
Proof.
  intros found. unfold found, metric_suffixes.
  do 3 (split; [reflexivity|]).
  intros i. repeat split; rewrite find_skip3 by reflexivity.
  - rewrite find_app, find_class_suffix.
    destruct (nth_error (iou_per_class out) i); [reflexivity|]. simpl.
    do 2 (rewrite find_app, find_other_kind by reflexivity).
    now rewrite find_other_kind by reflexivity.
  - rewrite find_app, find_other_kind by reflexivity.
    rewrite find_app, find_class_suffix.
    destruct (nth_error (acc_per_class out) i); [reflexivity|]. simpl.
    rewrite find_app, find_other_kind by reflexivity.
    now rewrite find_other_kind by reflexivity.
  - do 2 (rewrite find_app, find_other_kind by reflexivity).
    rewrite find_app, find_class_suffix.
    destruct (nth_error (precision_per_class out) i); [reflexivity|]. simpl.
    now rewrite find_other_kind by reflexivity.
  - do 3 (rewrite find_app, find_other_kind by reflexivity).
    rewrite find_class_suffix.
    now destruct (nth_error (recall_per_class out) i).
Qed.

(** X12: a call that computes a report appends its records to the log,
    and among them each name identifies one number: the loss, the overall
    accuracy and the mean IoU under their three names, and entry [i] of
    each per-class vector under the name that ends in [i]; a per-class
    name whose index is beyond the vector is not logged. *)
Theorem logged_names_identify_metrics
        self predictions labels stage loss logged out :
  compute_metrics self predictions labels = Some out ->
  exists added,
    log_metrics self predictions labels stage loss logged
    = Some (logged ++ added) /\
    logged_value (stage ++ "_loss") added = Some loss /\
    logged_value (stage ++ "_aAcc") added = Some (acc out) /\
    logged_value (stage ++ "_mIoU") added = Some (iou out) /\
    forall i,
      logged_value (stage ++ "_IoU_" ++ str i) added
      = nth_error (iou_per_class out) i /\
      logged_value (stage ++ "_Acc_" ++ str i) added
      = nth_error (acc_per_class out) i /\
      logged_value (stage ++ "_Precision_" ++ str i) added
      = nth_error (precision_per_class out) i /\
      logged_value (stage ++ "_Recall_" ++ str i) added
      = nth_error (recall_per_class out) i.
Proof.
  intros Hout. exists (metric_records stage loss out).
  split; [now rewrite log_metrics_eq, Hout|].
  rewrite !logged_value_records.
  destruct (suffix_lookups loss out) as (H1 & H2 & H3 & H4).
  do 3 (split; [assumption|]).
  intros i. rewrite !logged_value_records. apply H4.
Qed.

Lemma logged_names_identify_metrics_witness :
  exists added,
    log_metrics default_module scenario_scores scenario_labels
                "val" (Finite (1 # 3)) []
    = Some ([] ++ added) /\
    logged_value ("val" ++ "_loss") added = Some (Finite (1 # 3)) /\
    logged_value ("val" ++ "_aAcc") added = Some (acc scenario_report) /\
    logged_value ("val" ++ "_mIoU") added = Some (iou scenario_report) /\
    forall i,
      logged_value ("val" ++ "_IoU_" ++ str i) added
      = nth_error (iou_per_class scenario_report) i /\
      logged_value ("val" ++ "_Acc_" ++ str i) added
      = nth_error (acc_per_class scenario_report) i /\
      logged_value ("val" ++ "_Precision_" ++ str i) added
      = nth_error (precision_per_class scenario_report) i /\
      logged_value ("val" ++ "_Recall_" ++ str i) added
      = nth_error (recall_per_class scenario_report) i.
Proof.
  apply (logged_names_identify_metrics
           default_module scenario_scores scenario_labels
           "val" (Finite (1 # 3)) [] scenario_report).
  reflexivity.
Defined.













(** The label 5 of this batch is the third class present, so its IoU is
    logged under the index 2. *)
Example label_five_is_logged_under_index_two :
  exists logged,
    log_metrics default_module scenario_scores partly_ignored_gt
                "train" (Finite 1) [] = Some logged /\
    class_universe default_module scenario_class_mask partly_ignored_gt
    = Some [0; 1; 5] /\
    logged_value "train_IoU_2" logged
    = Some (class_iou [0; 1; 1] [0; 5; 1] 5) /\
    logged_value "train_IoU_5" logged = None.
Proof. eexists. repeat split; reflexivity. Qed.

Lemma mean_iou_record
      self predictions labels stage loss logged out :
  compute_metrics self predictions labels = Some out ->
  exists added,
    log_metrics self predictions labels stage loss logged
    = Some (logged ++ added) /\
    logged_value (stage ++ "_mIoU") added = Some (iou out).
Proof.
  intros Hout. exists (metric_records stage loss out).
  split; [now rewrite log_metrics_eq, Hout|].
  rewrite logged_value_records.
  now destruct (suffix_lookups loss out) as (_ & _ & H3 & _).
Qed.

(** X14: a validation step that computes a report returns the loss and
    logs, under the name the checkpoint callback of [main] monitors, the
    mean IoU of its batch. *)
Theorem validation_step_logs_the_monitored_metric
        forward criterion self inputs labels logged out :
  compute_metrics self (forward inputs) labels = Some out ->
  exists added,
    validation_step forward criterion self (inputs, labels) logged
    = Some (criterion (forward inputs) labels, logged ++ added) /\
    logged_value checkpoint_monitor added = Some (iou out).
Proof.
  intros Hout.
  destruct (mean_iou_record
              self (forward inputs) labels "val"
              (criterion (forward inputs) labels) logged out Hout)
    as (added & Hlog & Hm).
  exists added. split; [|exact Hm].
  unfold validation_step, step. now rewrite Hlog.
Qed.

Lemma validation_step_logs_the_monitored_metric_witness :
  exists added,
    validation_step (fun x => x) (fun _ _ => Finite (1 # 3)) default_module
                    (scenario_scores, scenario_labels) []
    = Some ((fun _ _ => Finite (1 # 3)) ((fun x => x) scenario_scores)
                                        scenario_labels,
            [] ++ added) /\
    logged_value checkpoint_monitor added = Some (iou scenario_report).
Proof.
  apply (validation_step_logs_the_monitored_metric
           (fun x => x) (fun _ _ => Finite (1 # 3)) default_module
           scenario_scores scenario_labels [] scenario_report).
  reflexivity.
Defined.

(* ------------------------------------------------------------------ *)
(** ** Properties of [compute_mean_std] *)

Lemma Qsum_cons x xs : Qsum (x :: xs) = (x + Qsum xs)%Q.
Proof. reflexivity. Qed.

Lemma Qsum_app xs ys : (Qsum (xs ++ ys) == Qsum xs + Qsum ys)%Q.
Proof.
  induction xs as [|x xs IH]; cbn [app].
  - unfold Qsum at 2; simpl. ring.
  - rewrite !Qsum_cons, IH. ring.
Qed.

Lemma add_reduced a b :
  np.add (Finite (Qred a)) (Finite (Qred b)) = Finite (Qred (a + b)).
Proof.
  unfold np.add. f_equal. apply Qred_complete. now rewrite !Qred_correct.
Qed.

Lemma fold_add_reduced {A} (g : A -> Q) l a :
  fold_left np.add (map (fun x => Finite (Qred (g x))) l) (Finite (Qred a))
  = Finite (Qred (a + Qsum (map g l))).
Proof.
  revert a; induction l as [|x l IH]; intros a; cbn [map fold_left].
  - f_equal. apply Qred_complete. unfold Qsum; simpl. ring.
  - rewrite add_reduced, IH. f_equal. apply Qred_complete.
    rewrite Qsum_cons. ring.
Qed.

Lemma sum_floats_reduced {A} (g : A -> Q) l :
  sum_floats (map (fun x => Finite (Qred (g x))) l)
  = Finite (Qred (Qsum (map g l))).
Proof.
  unfold sum_floats. change (Finite 0) with (Finite (Qred 0)).
  rewrite fold_add_reduced. f_equal. apply Qred_complete. ring.
Qed.


Lemma row_length values B C P b c :
  length values = (B * (C * P))%nat -> (b < B)%nat -> (c < C)%nat ->
  length (row values C P b c) = P.
Proof.
  intros Hlen Hb Hc. unfold row. rewrite length_firstn, length_skipn, Hlen.
  assert (H1 : (S (b * C + c) <= B * C)%nat) by nia.
  assert (H2 : (S (b * C + c) * P <= B * C * P)%nat)
    by (apply Nat.mul_le_mono_r, H1).
  rewrite Nat.mul_assoc. simpl in H2. lia.
Qed.

Section ChannelSums.
Variable stat : list Q -> Q.
Variable along : list Q -> float64.
Hypothesis along_stat :
  forall xs, xs <> [] -> along xs = Finite (Qred (stat xs)).

Lemma channel_sums_rows batch_data B C rest :
  shape batch_data = B :: C :: rest -> numel rest <> 0%nat ->
  well_shaped batch_data ->
  channel_sums along (data batch_data) B C (numel rest)
  = map (fun c => Finite (Qred (Qsum (map stat (batch_rows c batch_data)))))
        (seq 0 C).
Proof.
  intros Hs HP W. unfold channel_sums, batch_rows. rewrite Hs.
  apply map_ext_in. intros c Hc. apply in_seq in Hc.
  rewrite map_map, <- sum_floats_reduced. f_equal.
  apply map_ext_in. intros b Hb. apply in_seq in Hb.
  apply along_stat. intros Hnil.
  assert (Hlen : length (row (data batch_data) C (numel rest) b c)
                 = numel rest).
  { apply (row_length _ B); try lia.
    unfold well_shaped in W. now rewrite W, Hs. }
  rewrite Hnil in Hlen. simpl in Hlen. congruence.
Qed.
End ChannelSums.

Lemma mean_along_stat xs : xs <> [] -> mean_along xs = Finite (Qred (Qmean xs)).
Proof. now destruct xs. Qed.

Lemma var_along_stat xs : xs <> [] -> var_along xs = Finite (Qred (Qvar xs)).
Proof. now destruct xs. Qed.

Lemma map2_maps {A B C D} (f : B -> C -> D) (g : A -> B) (h : A -> C) l :
  map2 f (map g l) (map h l) = map (fun a => f (g a) (h a)) l.
Proof. induction l as [|a l IH]; simpl; [reflexivity | now rewrite IH]. Qed.

Lemma iadd_tensor (S T : nat -> Q) C :
  iadd (Tensor (map (fun c => Finite (Qred (S c))) (seq 0 C)))
       (map (fun c => Finite (Qred (T c))) (seq 0 C))
  = Returns (Tensor (map (fun c => Finite (Qred (S c + T c))) (seq 0 C))).
Proof.
  unfold iadd. rewrite !length_map, Nat.eqb_refl, map2_maps.
  do 2 f_equal. apply map_ext. intros c. apply add_reduced.
Qed.

Lemma iadd_float (T : nat -> Q) C :
  iadd PyFloatZero (map (fun c => Finite (Qred (T c))) (seq 0 C))
  = Returns (Tensor (map (fun c => Finite (Qred (T c))) (seq 0 C))).
Proof.
  unfold iadd. rewrite map_map. do 2 f_equal. apply map_ext. intros c.
  change (Finite 0) with (Finite (Qred 0)). rewrite add_reduced.
  f_equal. apply Qred_complete. ring.
Qed.

Lemma batch_rows_length c batch_data B C rest :
  shape batch_data = B :: C :: rest -> length (batch_rows c batch_data) = B.
Proof.
  intros Hs. unfold batch_rows. rewrite Hs. now rewrite length_map, length_seq.
Qed.

(** The state after a run that starts from tensors holding the sums over
    the rows [R] seen so far. *)
Lemma run_loader_from_tensors C data_loader (R : nat -> list (list Q)) n :
  C <> 0%nat -> uniform_loader C data_loader ->
  run_loader data_loader
    (mk_stats_state
       (Tensor (map (fun c => Finite (Qred (Qsum (map Qmean (R c)))))
                    (seq 0 C)))
       (Tensor (map (fun c => Finite (Qred (Qsum (map Qvar (R c)))))
                    (seq 0 C)))
       n)
  = Returns
      (mk_stats_state
         (Tensor (map (fun c =>
                         Finite (Qred (Qsum (map Qmean
                                   (R c ++ loader_rows c data_loader)))))
                      (seq 0 C)))
         (Tensor (map (fun c =>
                         Finite (Qred (Qsum (map Qvar
                                   (R c ++ loader_rows c data_loader)))))
                      (seq 0 C)))
         (n + Z.of_nat (length (loader_rows 0 data_loader)))).
Proof.
  intros HC Hu. revert R n.
  induction Hu as [|[d l] rest (B & r & Hs & HB & HP & W) _ IH];
    intros R n.
  - simpl. rewrite Z.add_0_r. do 3 f_equal; apply map_ext; intros c;
      now rewrite app_nil_r.
  - simpl in Hs, W. cbn [run_loader]. unfold batch_update. rewrite Hs.
    destruct (Nat.eqb_spec (B * C) 0) as [Hz|_]; [nia|].
    cbn [mean var nb_samples].
    rewrite (channel_sums_rows Qmean mean_along mean_along_stat d B C r Hs HP W),
      (channel_sums_rows Qvar var_along var_along_stat d B C r Hs HP W).
    rewrite !iadd_tensor.
    rewrite (map_ext _ (fun c => Finite (Qred (Qsum (map Qmean
                                   (R c ++ batch_rows c d))))))
      by (intros c; f_equal; apply Qred_complete;
          now rewrite map_app, Qsum_app).
    rewrite (map_ext (fun c => Finite (Qred (Qsum (map Qvar (R c))
                                             + Qsum (map Qvar (batch_rows c d)))))
                     (fun c => Finite (Qred (Qsum (map Qvar
                                   (R c ++ batch_rows c d))))))
      by (intros c; f_equal; apply Qred_complete;
          now rewrite map_app, Qsum_app).
    rewrite (IH (fun c => R c ++ batch_rows c d)).
    cbn [loader_rows flat_map fst].
    rewrite length_app, (batch_rows_length 0 d B C r Hs), Nat2Z.inj_add.
    fold (loader_rows 0 rest).
    rewrite Z.add_assoc.
    do 3 f_equal; apply map_ext; intros c;
      fold (loader_rows c rest); now rewrite app_assoc.
Qed.

Lemma batch_rows_length_any c c' batch_data :
  length (batch_rows c batch_data) = length (batch_rows c' batch_data).
Proof.
  unfold batch_rows. destruct (shape batch_data) as [|B [|C rest]];
    try reflexivity.
  now rewrite !length_map.
Qed.

Lemma loader_rows_length_any c c' data_loader :
  length (loader_rows c data_loader) = length (loader_rows c' data_loader).
Proof.
  unfold loader_rows. induction data_loader as [|[d l] rest IH]; simpl;
    [reflexivity|].
  now rewrite !length_app, IH, (batch_rows_length_any c c').
Qed.

Lemma divide_by_count (stat : list Q -> Q) rows n :
  n = Z.of_nat (length rows) -> n <> 0 ->
  divide_by n (Finite (Qred (Qsum (map stat rows))))
  = Finite (Qred (Qmean (map stat rows))).
Proof.
  intros Hn Hz. unfold divide_by.
  destruct (Z.eqb_spec n 0); [contradiction|].
  f_equal. apply Qred_complete. unfold Qmean.
  now rewrite Qred_correct, length_map, Hn.
Qed.

(** The result for a uniform loader, in closed form. *)
Lemma mean_std_formula C data_loader :
  C <> 0%nat -> data_loader <> [] -> uniform_loader C data_loader ->
  compute_mean_std data_loader
  = Returns
      (map (fun c =>
              Finite (Qred (Qmean (map Qmean (loader_rows c data_loader)))))
           (seq 0 C),
       map (fun c =>
              Sqrt (Finite (Qred (Qmean (map Qvar
                                           (loader_rows c data_loader))))))
           (seq 0 C)).
Proof.
  intros HC Hne Hu.
  destruct data_loader as [|[d l] rest]; [now destruct Hne|].
  inversion Hu as [|? ? (B & r & Hs & HB & HP & W) Hrest]; subst.
  simpl in Hs, W.
  unfold compute_mean_std. cbn [run_loader]. unfold batch_update.
  rewrite Hs. destruct (Nat.eqb_spec (B * C) 0) as [Hz|_]; [nia|].
  cbn [mean var nb_samples].
  rewrite (channel_sums_rows Qmean mean_along mean_along_stat d B C r Hs HP W),
    (channel_sums_rows Qvar var_along var_along_stat d B C r Hs HP W).
  rewrite !iadd_float.
  rewrite (run_loader_from_tensors C rest (fun c => batch_rows c d) _ HC Hrest).
  cbn [mean var nb_samples].
  assert (Hn : forall c,
             0 + Z.of_nat B + Z.of_nat (length (loader_rows 0 rest))
             = Z.of_nat (length (batch_rows c d ++ loader_rows c rest))).
  { intros c.
    rewrite length_app, (batch_rows_length c d B C r Hs),
      (loader_rows_length_any c 0%nat). lia. }
  rewrite !map_map. f_equal. f_equal.
  - apply map_ext. intros c. apply divide_by_count; [apply Hn|].
    rewrite (Hn c), length_app, (batch_rows_length c d B C r Hs). lia.
  - apply map_ext. intros c. f_equal.
    apply divide_by_count; [apply Hn|].
    rewrite (Hn c), length_app, (batch_rows_length c d B C r Hs). lia.
Qed.

(** X15: for a loader that is not empty and whose batches all have [C]
    channels, at least one sample and at least one value per row, the
    returned mean of a channel is the average, over all samples of all
    batches, of the per-sample mean of that channel, and the returned
    std is the root of the average of the per-sample variances. *)
Theorem mean_std_closed_form C data_loader :
  C <> 0%nat -> data_loader <> [] -> uniform_loader C data_loader ->
  compute_mean_std data_loader
  = Returns
      (map (fun c =>
              Finite (Qred (Qmean (map Qmean (loader_rows c data_loader)))))
           (seq 0 C),
       map (fun c =>
              Sqrt (Finite (Qred (Qmean (map Qvar
                                           (loader_rows c data_loader))))))
           (seq 0 C)).
Proof. exact (mean_std_formula C data_loader). Qed.

Lemma whole_loader_uniform : uniform_loader 2 whole_loader.
Proof.
  repeat constructor. exists 2%nat, [2%nat].
  repeat split; try reflexivity; discriminate.
Qed.



Lemma mean_std_closed_form_witness :
  compute_mean_std whole_loader
  = Returns
      (map (fun c =>
              Finite (Qred (Qmean (map Qmean (loader_rows c whole_loader)))))
           (seq 0 2),
       map (fun c =>
              Sqrt (Finite (Qred (Qmean (map Qvar
                                           (loader_rows c whole_loader))))))
           (seq 0 2)).
Proof.
  apply (mean_std_closed_form 2 whole_loader).
  - discriminate.
  - discriminate.
  - exact whole_loader_uniform.
Defined.










(** The two samples of [flat_loader] hold the values 1 and 3: the mean is
    2 and the returned std is the root of 0, while the values of the data
    set are spread around 2. *)
Example flat_loader_statistics :
  compute_mean_std flat_loader = Returns ([Finite 2], [Sqrt (Finite 0)]).
Proof. reflexivity. Qed.

Lemma run_loader_returns data_loader st st' :
  run_loader data_loader st = Returns st' ->
  Forall (fun batch =>
            exists B C rest,
              shape (fst batch) = B :: C :: rest /\
              B <> 0%nat /\ C <> 0%nat)
         data_loader /\
  (data_loader = [] -> st' = st).
Proof.
  revert st; induction data_loader as [|[d l] rest IH]; intros st H.
  - simpl in H. injection H as <-. split; [constructor | reflexivity].
  - cbn [run_loader] in H.
    destruct (batch_update st d) as [st1|e] eqn:Hb; [|discriminate].
    destruct (IH st1 H) as (Hall & _).
    split; [|discriminate]. constructor; [|exact Hall].
    unfold batch_update in Hb. cbn [fst].
    destruct (shape d) as [|B [|C r]]; try discriminate.
    destruct (Nat.eqb_spec (B * C) 0) as [|Hnz]; [discriminate|].
    exists B, C, r. repeat split; nia.
Qed.

(** X18: statistics are returned only for a loader that is not empty and
    whose batches all have a sample axis and a channel axis, both not
    empty; on an empty loader the call raises a division by zero. *)
Theorem compute_mean_std_needs_samples data_loader result :
  compute_mean_std data_loader = Returns result ->
  data_loader <> [] /\
  Forall (fun batch =>
            exists B C rest,
              shape (fst batch) = B :: C :: rest /\
              B <> 0%nat /\ C <> 0%nat)
         data_loader /\
  compute_mean_std [] = Raises ZeroDivisionError.
Proof.
  intros H. unfold compute_mean_std in H.
  destruct (run_loader data_loader _) as [st|e] eqn:Hrun; [|discriminate].
  destruct (run_loader_returns _ _ _ Hrun) as (Hall & Hnil).
  split; [|split; [exact Hall | reflexivity]].
  intros ->. rewrite (Hnil eq_refl) in H. discriminate.
Qed.

Lemma compute_mean_std_needs_samples_witness :
  flat_loader <> [] /\
  Forall (fun batch =>
            exists B C rest,
              shape (fst batch) = B :: C :: rest /\
              B <> 0%nat /\ C <> 0%nat)
         flat_loader /\
  compute_mean_std [] = Raises ZeroDivisionError.
Proof.
  apply (compute_mean_std_needs_samples
           flat_loader ([Finite 2], [Sqrt (Finite 0)])).
  reflexivity.
Defined.

(* ------------------------------------------------------------------ *)
(** ** A further property of the no-data masking *)

Lemma eq_float_nan v : np.eq_float v NaN = false.
Proof. now destruct v. Qed.

Lemma no_data_at_nan hls_tile C H W j :
  no_data_at NaN hls_tile C H W j = false.
Proof.
  unfold no_data_at.
  destruct (existsb _ (seq 0 C)) eqn:Hex; [|reflexivity].
  apply existsb_exists in Hex as (ch & _ & Hnth).
  rewrite nth_map_or_default in Hnth.
  destruct (nth_error (data hls_tile) _) as [v|]; [|discriminate].
  now rewrite eq_float_nan in Hnth.
Qed.

Lemma map2_all_false {A} (x : A) (bs : list bool) (vs : list A) :
  Forall (fun b => b = false) bs -> length bs = length vs ->
  map2 (fun (b : bool) v => if b then x else v) bs vs = vs.
Proof.
  intros Hall. revert vs.
  induction Hall as [|b bs -> _ IH]; intros [|v vs] E; try discriminate E;
    [reflexivity|].
  simpl. f_equal. apply IH. now injection E.
Qed.

(** X19: a no-data value of [nan] masks nothing, since no float compares
    equal to [nan]: the written prediction is the stitched prediction,
    whatever the tile holds. *)
Theorem nan_no_data_value_masks_nothing hls_tile prediction C H W :
  shape hls_tile = [C; H; W] ->
  shape prediction = [H; W] ->
  well_shaped prediction ->
  written_prediction NaN hls_tile prediction = Some prediction.
Proof.
  intros Ht Hp Wp.
  rewrite (written_prediction_eq NaN _ _ C H W Ht Hp).
  rewrite map2_all_false.
  - destruct prediction as [s d]. simpl in Hp. now subst s.
  - apply Forall_map, Forall_forall. intros j _. apply no_data_at_nan.
  - rewrite length_map, length_seq. unfold well_shaped in Wp.
    rewrite Wp, Hp. simpl. lia.
Qed.

Lemma nan_no_data_value_masks_nothing_witness :
  written_prediction NaN example_tile example_prediction
  = Some example_prediction.
Proof.
  apply (nan_no_data_value_masks_nothing
           example_tile example_prediction 2 1 2);
    reflexivity.
Defined.

(* ------------------------------------------------------------------ *)
(** ** Properties of the collate functions *)

Lemma cat_passes_over_nothing {A} (s : list nat) (tensors : list (ndarray A)) :
  Forall (fun t => exists n, shape t = n :: s) tensors ->
  Forall well_shaped tensors ->
  let real := filter (fun t => negb (list_nat_eqb (shape t) [0%nat]))
                     tensors in
  list_sum (map leading real) = list_sum (map leading tensors) /\
  concat (map data real) = concat (map data tensors) /\
  Forall (fun t => list_nat_eqb (tl (shape t)) s = true) real.
Proof.
  induction tensors as [|t ts IH]; intros Hc Hw; simpl.
  - repeat split. constructor.
  - inversion Hc as [|? ? (n & Hn) Hc']; subst.
    inversion Hw as [|? ? Wt Hw']; subst.
    destruct (IH Hc' Hw') as (Hsum & Hcat & Hall).
    destruct (list_nat_eqb (shape t) [0%nat]) eqn:Hz; simpl.
    + apply list_nat_eqb_true in Hz.
      unfold leading at 2. rewrite Hz. simpl.
      unfold well_shaped in Wt. rewrite Hz in Wt. simpl in Wt.
      destruct (data t); [|discriminate]. simpl. now repeat split.
    + repeat split; try congruence.
      constructor; [|exact Hall]. rewrite Hn. apply list_nat_eqb_refl.
Qed.

Lemma torch_cat_common {A} (s : list nat) (tensors : list (ndarray A)) :
  Forall (fun t => exists n, shape t = n :: s) tensors ->
  Forall well_shaped tensors ->
  tensors <> [] ->
  torch_cat tensors
  = Returns (mk_ndarray (list_sum (map leading tensors) :: s)
                        (concat (map data tensors))).
Proof.
  intros common shaped Hne.
  destruct (cat_passes_over_nothing s tensors common shaped)
    as (Hsum & Hcat & Hall).
  assert (Hno0 : existsb (fun t => list_nat_eqb (shape t) []) tensors = false).
  { destruct (existsb _ tensors) eqn:Hex; [|reflexivity].
    apply existsb_exists in Hex as (x & Hin & Hx).
    apply list_nat_eqb_true in Hx.
    rewrite Forall_forall in common. destruct (common x Hin) as (n & Hn).
    congruence. }
  unfold torch_cat. rewrite Hno0.
  destruct tensors as [|t ts] eqn:Ht; [now destruct Hne|].
  rewrite <- Ht in *. clear Hne.
  destruct (filter _ tensors) as [|t0 others] eqn:Hreal.
  - simpl in Hsum, Hcat. rewrite <- Hsum, <- Hcat.
    assert (Hs : s = []).
    { assert (Hin : In t tensors) by (rewrite Ht; now left).
      rewrite Forall_forall in common. destruct (common t Hin) as (n & Hn).
      assert (Hout : negb (list_nat_eqb (shape t) [0%nat]) = false).
      { destruct (negb _) eqn:Hk; [|reflexivity].
        assert (Hf : In t (filter
                             (fun t => negb (list_nat_eqb (shape t) [0%nat]))
                             tensors))
          by (apply filter_In; split; assumption).
        rewrite Hreal in Hf. destruct Hf. }
      apply negb_false_iff, list_nat_eqb_true in Hout. congruence. }
    now rewrite Hs.
  - inversion Hall as [|? ? H0 Hothers]; subst.
    apply list_nat_eqb_true in H0. rewrite H0.
    assert (Hf : forallb (fun t => list_nat_eqb (tl (shape t)) s) others = true).
    { apply forallb_forall. rewrite Forall_forall in Hothers. exact Hothers. }
    rewrite Hf. now rewrite Hsum, Hcat.
Qed.

Lemma concat_data_length {A} (s : list nat) (tensors : list (ndarray A)) :
  Forall (fun t => exists n, shape t = n :: s) tensors ->
  Forall well_shaped tensors ->
  length (concat (map data tensors))
  = (list_sum (map leading tensors) * numel s)%nat.
Proof.
  induction tensors as [|t ts IH]; intros Hc Hw; simpl; [reflexivity|].
  inversion Hc as [|? ? (n & Hn) Hc']; subst.
  inversion Hw as [|? ? Wt Hw']; subst.
  rewrite length_app, (IH Hc' Hw'). unfold well_shaped in Wt.
  rewrite Wt. unfold leading. rewrite Hn. simpl. lia.
Qed.

(** X20: for a batch that is not empty and whose items hold, each, as
    many windows of data as of labels (of one shape across the batch),
    [eval_collate_fn] returns the data and the labels of the items put
    one after the other in the order of the batch, with the same total
    number of windows on both sides. *)
Theorem eval_collate_keeps_alignment
        (batch : list (item (ndarray Z))) (s s' : list nat) :
  batch <> [] ->
  Forall (fun a =>
            exists n,
              shape (fst (fst a)) = n :: s /\ shape (snd (fst a)) = n :: s' /\
              well_shaped (fst (fst a)) /\ well_shaped (snd (fst a)))
         batch ->
  exists collated labels N,
    eval_collate_fn batch = Returns (collated, labels) /\
    shape collated = N :: s /\ shape labels = N :: s' /\
    well_shaped collated /\ well_shaped labels /\
    data collated = concat (map (fun a => data (fst (fst a))) batch) /\
    data labels = concat (map (fun a => data (snd (fst a))) batch).
Proof.
  intros Hne Hall. unfold eval_collate_fn.
  set (ds := map (fun a => fst (fst a)) batch).
  set (ls := map (fun a => snd (fst a)) batch).
  assert (Hd : Forall (fun t => exists n, shape t = n :: s) ds).
  { apply Forall_map. eapply Forall_impl; [|exact Hall].
    intros a (n & H1 & _). now exists n. }
  assert (Hl : Forall (fun t => exists n, shape t = n :: s') ls).
  { apply Forall_map. eapply Forall_impl; [|exact Hall].
    intros a (n & _ & H2 & _). now exists n. }
  assert (Wd : Forall well_shaped ds).
  { apply Forall_map. eapply Forall_impl; [|exact Hall].
    now intros a (n & _ & _ & H3 & _). }
  assert (Wl : Forall well_shaped ls).
  { apply Forall_map. eapply Forall_impl; [|exact Hall].
    now intros a (n & _ & _ & _ & H4). }
  assert (Hsame : list_sum (map leading ls) = list_sum (map leading ds)).
  { unfold ls, ds. clear -Hall.
    induction Hall as [|a l (n & H1 & H2 & _) _ IH]; simpl; [reflexivity|].
    unfold leading at 1 3. now rewrite H1, H2, IH. }
  assert (Hnd : ds <> []) by (unfold ds; destruct batch; [congruence | discriminate]).
  assert (Hnl : ls <> []) by (unfold ls; destruct batch; [congruence | discriminate]).
  rewrite (torch_cat_common s ds Hd Wd Hnd), (torch_cat_common s' ls Hl Wl Hnl).
  do 3 eexists. split; [reflexivity|].
  cbn [shape data].
  split; [reflexivity|]. split; [now rewrite Hsame|].
  split; [|split; [|split]].
  - unfold well_shaped; cbn [shape data numel fold_right].
    now rewrite (concat_data_length s _ Hd Wd).
  - unfold well_shaped; cbn [shape data numel fold_right].
    now rewrite (concat_data_length s' _ Hl Wl).
  - unfold ds. now rewrite map_map.
  - unfold ls. now rewrite map_map.
Qed.

Lemma concat_slice {A} (P : nat) (ls : list (list A)) i l :
  Forall (fun x => length x = P) ls -> nth_error ls i = Some l ->
  firstn P (skipn (i * P) (concat ls)) = l.
Proof.
  intros Hall. revert i. induction Hall as [|x ls Hx _ IH]; intros i Hi.
  - now destruct i.
  - destruct i as [|i]; simpl in Hi.
    + injection Hi as ->. simpl.
      rewrite firstn_app, <- Hx, Nat.sub_diag, firstn_all. simpl.
      apply app_nil_r.
    + cbn [concat]. rewrite skipn_app, <- Hx.
      replace (S i * length x - length x)%nat with (i * length x)%nat by lia.
      rewrite skipn_all2 by lia. simpl. rewrite Hx. now apply IH.
Qed.

Lemma concat_uniform_length {A} (P : nat) (ls : list (list A)) :
  Forall (fun x => length x = P) ls ->
  length (concat ls) = (length ls * P)%nat.
Proof.
  induction 1 as [|x ls Hx _ IH]; simpl; [reflexivity|].
  rewrite length_app, Hx, IH. lia.
Qed.

Lemma torch_stack_common {A} (s : list nat) (tensors : list (ndarray A)) :
  tensors <> [] -> Forall (fun t => shape t = s) tensors ->
  torch_stack tensors
  = Returns (mk_ndarray (length tensors :: s) (concat (map data tensors))).
Proof.
  intros Hne Hall. unfold torch_stack.
  destruct tensors as [|t0 others]; [now destruct Hne|].
  inversion Hall as [|? ? H0 Hothers]; subst.
  assert (Hf : forallb (fun t => list_nat_eqb (shape t) (shape t0)) others
               = true).
  { apply forallb_forall. intros t Ht. rewrite Forall_forall in Hothers.
    rewrite (Hothers t Ht). apply list_nat_eqb_refl. }
  now rewrite Hf.
Qed.

(** X21: for a batch that is not empty and whose items hold data of one
    shape, [infer_collate_fn] returns a tensor with one sample per item,
    and sample [i], label [i] and path [i] of the result are those of
    item [i]: every sample stays paired with the path of its file. *)
Theorem infer_collate_pairs_samples_with_paths
        {L} (batch : list (item L)) (s : list nat) :
  batch <> [] ->
  Forall (fun a => shape (fst (fst a)) = s /\ well_shaped (fst (fst a)))
         batch ->
  exists stacked labels filepaths,
    infer_collate_fn batch = Returns ((stacked, labels), filepaths) /\
    shape stacked = length batch :: s /\
    well_shaped stacked /\
    forall i a,
      nth_error batch i = Some a ->
      sample stacked s i = data (fst (fst a)) /\
      nth_error labels i = Some (snd (fst a)) /\
      nth_error filepaths i = Some (snd a).
Proof.
  intros Hne Hall. unfold infer_collate_fn.
  set (ds := map (fun a => fst (fst a)) batch).
  assert (Hs : Forall (fun t => shape t = s) ds).
  { apply Forall_map. eapply Forall_impl; [|exact Hall]. now intros a (H & _). }
  assert (Hlen : Forall (fun x => length x = numel s) (map data ds)).
  { apply Forall_map, Forall_map. eapply Forall_impl; [|exact Hall].
    intros a (Ha & W). unfold well_shaped in W. now rewrite W, Ha. }
  assert (Hnd : ds <> [])
    by (unfold ds; destruct batch; [congruence | discriminate]).
  rewrite (torch_stack_common s ds Hnd Hs).
  do 3 eexists. split; [reflexivity|].
  cbn [shape data].
  split; [unfold ds; now rewrite length_map|]. split.
  - unfold well_shaped; cbn [shape data numel fold_right].
    rewrite (concat_uniform_length (numel s) _ Hlen).
    now rewrite !length_map.
  - intros i a Hi. unfold item in *. split; [|split].
    + unfold sample; cbn [data]. apply concat_slice; [exact Hlen|].
      unfold ds. rewrite !nth_error_map. now rewrite Hi.
    + rewrite nth_error_map. now rewrite Hi.
    + rewrite nth_error_map. now rewrite Hi.
Qed.

(** X22: [infer_collate_fn] returns only for a batch that is not empty
    and whose items hold data of one shape: chips of different sizes
    cannot be stacked. *)
Theorem infer_collate_needs_one_shape {L} (batch : list (item L)) result :
  infer_collate_fn batch = Returns result ->
  exists first rest,
    batch = first :: rest /\
    Forall (fun a => shape (fst (fst a)) = shape (fst (fst first))) batch.
Proof.
  unfold infer_collate_fn, torch_stack.
  destruct batch as [|first rest]; [discriminate|]. cbn [map].
  destruct (forallb _ _) eqn:Hf; [|discriminate].
  intros _. exists first, rest. split; [reflexivity|].
  constructor; [reflexivity|].
  apply Forall_forall. intros a Ha.
  rewrite forallb_forall in Hf.
  apply list_nat_eqb_true, Hf, in_map_iff. now exists a.
Qed.

Lemma eval_collate_keeps_alignment_witness :
  exists collated labels N,
    eval_collate_fn eval_batch = Returns (collated, labels) /\
    shape collated = N :: [1; 1]%nat /\ shape labels = N :: [1%nat] /\
    well_shaped collated /\ well_shaped labels /\
    data collated = concat (map (fun a => data (fst (fst a))) eval_batch) /\
    data labels = concat (map (fun a => data (snd (fst a))) eval_batch).
Proof.
  apply (eval_collate_keeps_alignment eval_batch [1; 1]%nat [1%nat]).
  - discriminate.
  - repeat constructor.
    + exists 2%nat. repeat split; reflexivity.
    + exists 1%nat. repeat split; reflexivity.
Defined.

Lemma infer_collate_pairs_samples_with_paths_witness :
  exists stacked labels filepaths,
    infer_collate_fn chip_batch = Returns ((stacked, labels), filepaths) /\
    shape stacked = length chip_batch :: [1; 2]%nat /\
    well_shaped stacked /\
    forall i a,
      nth_error chip_batch i = Some a ->
      sample stacked [1; 2]%nat i = data (fst (fst a)) /\
      nth_error labels i = Some (snd (fst a)) /\
      nth_error filepaths i = Some (snd a).
Proof.
  apply (infer_collate_pairs_samples_with_paths chip_batch [1; 2]%nat).
  - discriminate.
  - repeat constructor.
Defined.

Lemma infer_collate_needs_one_shape_witness :
  exists first rest,
    chip_batch = first :: rest /\
    Forall (fun a => shape (fst (fst a)) = shape (fst (fst first)))
           chip_batch.
Proof.
  apply (infer_collate_needs_one_shape
           chip_batch
           ((mk_ndarray [2; 1; 2]%nat [1; 2; 3; 4]%Q,
             [mk_ndarray [2]%nat [0; 1]; mk_ndarray [2]%nat [1; 1]]),
            ["a.tif"; "b.tif"]%string)).
  reflexivity.
Defined.

(** Chips of two sizes are not stacked, and an empty batch is not
    collated. *)
Example collate_failures :
  infer_collate_fn
    [((mk_ndarray [1; 2]%nat [1; 2]%Q, no_labels), "a.tif"%string);
     ((mk_ndarray [1; 3]%nat [3; 4; 5]%Q, no_labels), "b.tif"%string)]
  = Raises TorchRuntimeError /\
  infer_collate_fn (@nil (item (ndarray Z))) = Raises TorchRuntimeError /\
  eval_collate_fn [] = Raises TorchRuntimeError.
Proof. repeat split; reflexivity. Qed.

(* ------------------------------------------------------------------ *)
(** ** The report against the values of the masks *)

Lemma map_fst_combine_same {A B} (l : list A) (m : list B) :
  length l = length m -> map fst (combine l m) = l.
Proof.
  revert m; induction l as [|a l IH]; intros [|b m] E; try discriminate E;
    [reflexivity|].
  simpl. f_equal. apply IH. now injection E.
Qed.

Lemma map_snd_combine_same {A B} (l : list A) (m : list B) :
  length l = length m -> map snd (combine l m) = m.
Proof.
  revert m; induction l as [|a l IH]; intros [|b m] E; try discriminate E;
    [reflexivity|].
  simpl. f_equal. apply IH. now injection E.
Qed.

Lemma sum_map_filter {A} (f : A -> bool) l :
  np.sum (map f l) = Z.of_nat (length (filter f l)).
Proof.
  induction l as [|a l IH]; [reflexivity|].
  cbn [map filter]. rewrite np_facts.sum_cons, IH.
  destruct (f a); cbn [length Z.b2z]; lia.
Qed.

(** What a call selects, in terms of its evaluated pixels. *)
Lemma selected_arrays self pred_mask gt_mask :
  shape pred_mask = shape gt_mask ->
  well_shaped pred_mask -> well_shaped gt_mask ->
  exists sp sg,
    selected_pred self pred_mask gt_mask = Some sp /\
    selected_gt self gt_mask = Some sg /\
    metrics_of_class_mask self pred_mask gt_mask
    = Some (metrics_of_selected sp sg) /\
    class_universe self pred_mask gt_mask = Some (classes sp sg) /\
    length sp = length sg /\
    sp = map fst (evaluated_pixels (ignore_index self)
                                   (data pred_mask) (data gt_mask)) /\
    sg = map snd (evaluated_pixels (ignore_index self)
                                   (data pred_mask) (data gt_mask)).
Proof.
  intros E Wp Wg.
  pose proof (same_data_length _ _ E Wp Wg) as L.
  exists (torch.select (data pred_mask) (map (kept self) (data gt_mask))),
    (torch.select (data gt_mask) (map (kept self) (data gt_mask))).
  assert (Ls : length (torch.select (data pred_mask)
                                    (map (kept self) (data gt_mask)))
               = length (torch.select (data gt_mask)
                                      (map (kept self) (data gt_mask))))
    by (apply select_same_length, L).
  pose proof (select_combine (kept self) _ _ L) as Hc.
  split; [apply (selected_pred_eq self _ _ E)|].
  split; [apply selected_gt_eq|].
  split; [apply (metrics_of_class_mask_eq self _ _ E)|].
  split.
  { unfold class_universe.
    now rewrite (selected_pred_eq self _ _ E), selected_gt_eq. }
  split; [exact Ls|].
  unfold evaluated_pixels.
  change (fun pg : Z * Z => negb (snd pg =? ignore_index self))
    with (fun pg : Z * Z => kept self (snd pg)).
  rewrite <- Hc.
  split; [now rewrite map_fst_combine_same | now rewrite map_snd_combine_same].
Qed.

Lemma classes_are_evaluated_values ignore_value pred gt c :
  In c (classes (map fst (evaluated_pixels ignore_value pred gt))
                (map snd (evaluated_pixels ignore_value pred gt)))
  <-> In c (evaluated_values ignore_value pred gt).
Proof. unfold evaluated_values. now rewrite classes_In, in_app_iff. Qed.

Lemma distinct_count l l' :
  NoDup l -> (forall c : Z, In c l <-> In c l') ->
  length l = length (nodup Z.eq_dec l').
Proof.
  intros Hnd Hm. apply Permutation_length, NoDup_Permutation.
  - exact Hnd.
  - apply NoDup_nodup.
  - intros c. now rewrite nodup_In.
Qed.

Lemma in_nth_error {A} (l : list A) a :
  In a l -> exists i, nth_error l i = Some a.
Proof. apply In_nth_error. Qed.

Lemma counts_of_class ignore_value pred gt c :
  let sp := map fst (evaluated_pixels ignore_value pred gt) in
  let sg := map snd (evaluated_pixels ignore_value pred gt) in
  true_positive sp sg c + false_positive sp sg c
  = predicted_count ignore_value pred gt c /\
  true_positive sp sg c + false_negative sp sg c
  = labelled_count ignore_value pred gt c.
Proof.
  intros sp sg. unfold predicted_count, labelled_count.
  rewrite tp_plus_fp, tp_plus_fn. unfold pred_cls, gt_cls, np.eq_scalar, sp, sg.
  rewrite !map_map, <- !sum_map_filter. split; reflexivity.
Qed.

(** C10: in the report of a call on well-shaped masks of one shape, the
    four per-class vectors all have as many entries as there are
    distinct values of the prediction and the ground truth at the
    evaluated pixels; the class universe holds exactly these values, in
    strictly ascending order, and entry [i] of each vector is the metric
    of the [i]-th of them.  This holds with or without an evaluated
    pixel. *)
Theorem per_class_vectors_follow_universe self pred_mask gt_mask :
  shape pred_mask = shape gt_mask ->
  well_shaped pred_mask -> well_shaped gt_mask ->
  exists out sp sg cs,
    metrics_of_class_mask self pred_mask gt_mask = Some out /\
    selected_pred self pred_mask gt_mask = Some sp /\
    selected_gt self gt_mask = Some sg /\
    class_universe self pred_mask gt_mask = Some cs /\
    StronglySorted Z.lt cs /\
    (forall c,
        In c cs <->
        In c (evaluated_values (ignore_index self)
                               (data pred_mask) (data gt_mask))) /\
    length cs
    = length (nodup Z.eq_dec
                    (evaluated_values (ignore_index self)
                                      (data pred_mask) (data gt_mask))) /\
    length (iou_per_class out) = length cs /\
    length (acc_per_class out) = length cs /\
    length (precision_per_class out) = length cs /\
    length (recall_per_class out) = length cs /\
    iou_per_class out = map (class_iou sp sg) cs /\
    acc_per_class out = map (class_accuracy sp sg) cs /\
    precision_per_class out = map (class_precision sp sg) cs /\
    recall_per_class out = map (class_recall sp sg) cs.
Proof.
  intros E Wp Wg.
  destruct (selected_arrays self _ _ E Wp Wg)
    as (sp & sg & Hsp & Hsg & Hout & Hcs & Ls & Hp & Hg).
  exists (metrics_of_selected sp sg), sp, sg, (classes sp sg).
  do 4 (split; [assumption|]).
  split; [apply classes_sorted|].
  assert (Hm : forall c,
             In c (classes sp sg) <->
             In c (evaluated_values (ignore_index self)
                                    (data pred_mask) (data gt_mask))).
  { intros c. rewrite Hp, Hg. apply classes_are_evaluated_values. }
  split; [exact Hm|].
  split; [apply distinct_count; [apply classes_NoDup | exact Hm]|].
  unfold metrics_of_selected; simpl.
  rewrite (class_loop_maps _ _ Ls); simpl.
  rewrite !length_map. now repeat split.
Qed.

Lemma per_class_vectors_follow_universe_witness :
  exists out,
    metrics_of_class_mask default_module partly_ignored_pred partly_ignored_gt
    = Some out /\
    class_universe default_module partly_ignored_pred partly_ignored_gt
    = Some [0; 1; 5] /\
    length (iou_per_class out) = 3%nat /\
    length (acc_per_class out) = 3%nat /\
    length (precision_per_class out) = 3%nat /\
    length (recall_per_class out) = 3%nat.
Proof.
  destruct (per_class_vectors_follow_universe
              default_module partly_ignored_pred partly_ignored_gt
              eq_refl eq_refl eq_refl)
    as (out & sp & sg & cs & Hout & _ & _ & Hcs & _ & _ & Hn
        & Hi & Ha & Hp & Hr & _).
  exists out. split; [exact Hout|]. split; [reflexivity|].
  rewrite Hi, Ha, Hp, Hr, Hn. repeat split; reflexivity.
Defined.

Lemma map_constant {A B} (f : A -> B) (b : B) l :
  (forall a, In a l -> f a = b) -> map f l = repeat b (length l).
Proof.
  induction l as [|a l IH]; intros H; simpl; [reflexivity|].
  rewrite (H a) by (now left). f_equal. apply IH.
  intros x Hx. apply H. now right.
Qed.

(** C4: when the prediction is the ground truth at every pixel and no
    pixel is ignored, every value that occurs in the masks is a class of
    the report with no false positive and no false negative, and each of
    the four per-class vectors holds the value 1 once per distinct value
    of the masks and nothing else. *)
Theorem perfect_prediction_metrics self pred_mask gt_mask :
  shape pred_mask = shape gt_mask ->
  data pred_mask = data gt_mask ->
  Forall (fun g => g <> ignore_index self) (data gt_mask) ->
  exists out,
    metrics_of_class_mask self pred_mask gt_mask = Some out /\
    selected_pred self pred_mask gt_mask = Some (data pred_mask) /\
    selected_gt self gt_mask = Some (data gt_mask) /\
    (forall c,
        In c (data gt_mask) ->
        false_positive (data pred_mask) (data gt_mask) c = 0 /\
        false_negative (data pred_mask) (data gt_mask) c = 0 /\
        exists i,
          nth_error (classes (data pred_mask) (data gt_mask)) i = Some c /\
          nth_error (iou_per_class out) i = Some (Finite 1) /\
          nth_error (acc_per_class out) i = Some (Finite 1) /\
          nth_error (precision_per_class out) i = Some (Finite 1) /\
          nth_error (recall_per_class out) i = Some (Finite 1)) /\
    (forall c, In c (classes (data pred_mask) (data gt_mask)) <->
               In c (data gt_mask)) /\
    iou_per_class out
    = repeat (Finite 1) (length (nodup Z.eq_dec (data gt_mask))) /\
    acc_per_class out
    = repeat (Finite 1) (length (nodup Z.eq_dec (data gt_mask))) /\
    precision_per_class out
    = repeat (Finite 1) (length (nodup Z.eq_dec (data gt_mask))) /\
    recall_per_class out
    = repeat (Finite 1) (length (nodup Z.eq_dec (data gt_mask))).
Proof.
  intros E D F.
  assert (K : Forall (fun y => kept self y = true) (data gt_mask)).
  { eapply Forall_impl; [|exact F]. simpl. intros g Hg. unfold kept.
    now destruct (Z.eqb_spec g (ignore_index self)). }
  assert (Sg : torch.select (data gt_mask) (map (kept self) (data gt_mask))
               = data gt_mask)
    by (now apply select_everything).
  exists (metrics_of_selected (data pred_mask) (data gt_mask)).
  rewrite (metrics_of_class_mask_eq self _ _ E),
    (selected_pred_eq self _ _ E), selected_gt_eq, D, Sg.
  do 3 (split; [reflexivity|]).
  assert (Hm : forall c, In c (classes (data gt_mask) (data gt_mask))
                         <-> In c (data gt_mask))
    by (intros c; rewrite classes_In; tauto).
  assert (Hlen : length (classes (data gt_mask) (data gt_mask))
                 = length (nodup Z.eq_dec (data gt_mask)))
    by (apply distinct_count; [apply classes_NoDup | exact Hm]).
  unfold metrics_of_selected.
  rewrite (class_loop_maps _ _ eq_refl).
  cbn [iou acc acc_per_class iou_per_class precision_per_class
       recall_per_class pc_iou pc_accuracy pc_precision pc_recall].
  split.
  { intros c Hc.
    destruct (perfect_counts (data gt_mask) c) as (_ & Hfp & Hfn).
    do 2 (split; [assumption|]).
    destruct (in_nth_error _ c (proj2 (Hm c) Hc)) as (i & Hi).
    exists i. split; [exact Hi|].
    rewrite !nth_error_map, Hi; simpl.
    destruct (perfect_ratios _ c Hc) as (-> & -> & -> & ->).
    now repeat split. }
  split; [exact Hm|].
  rewrite <- Hlen.
  repeat split; apply map_constant; intros c Hc; apply Hm in Hc;
    now destruct (perfect_ratios _ c Hc) as (? & ? & ? & ?).
Qed.

Lemma perfect_prediction_metrics_witness :
  exists out,
    metrics_of_class_mask default_module scenario_gt scenario_gt = Some out /\
    false_positive (data scenario_gt) (data scenario_gt) 1 = 0 /\
    false_negative (data scenario_gt) (data scenario_gt) 1 = 0 /\
    iou_per_class out = [Finite 1; Finite 1] /\
    acc_per_class out = [Finite 1; Finite 1] /\
    precision_per_class out = [Finite 1; Finite 1] /\
    recall_per_class out = [Finite 1; Finite 1].
Proof.
  assert (F : Forall (fun g => g <> ignore_index default_module)
                     (data scenario_gt))
    by (repeat constructor; vm_compute; discriminate).
  destruct (perfect_prediction_metrics
              default_module scenario_gt scenario_gt eq_refl eq_refl F)
    as (out & Hout & _ & _ & Hc & _ & Hi & Ha & Hp & Hr).
  exists out. split; [exact Hout|].
  destruct (Hc 1) as (Hfp & Hfn & _); [simpl; auto|].
  rewrite Hi, Ha, Hp, Hr. now repeat split.
Defined.

(** C7: a call on well-shaped masks of one shape returns a report in
    which every value of the prediction or the ground truth at an
    evaluated pixel has its entries; the precision denominator of a class
    (TP + FP) is the number of evaluated pixels predicted as the class and
    its recall denominator (TP + FN) the number whose ground truth is the
    class; the precision entry is zero when the first is zero and the
    recall entry is zero when the second is zero. *)
Theorem zero_denominator_gives_zero self pred_mask gt_mask :
  shape pred_mask = shape gt_mask ->
  well_shaped pred_mask -> well_shaped gt_mask ->
  exists out sp sg,
    metrics_of_class_mask self pred_mask gt_mask = Some out /\
    selected_pred self pred_mask gt_mask = Some sp /\
    selected_gt self gt_mask = Some sg /\
    (forall i c,
        nth_error (classes sp sg) i = Some c ->
        (true_positive sp sg c + false_positive sp sg c = 0 ->
         nth_error (precision_per_class out) i = Some (Finite 0)) /\
        (true_positive sp sg c + false_negative sp sg c = 0 ->
         nth_error (recall_per_class out) i = Some (Finite 0))) /\
    forall c,
      In c (evaluated_values (ignore_index self)
                             (data pred_mask) (data gt_mask)) ->
      true_positive sp sg c + false_positive sp sg c
      = predicted_count (ignore_index self)
                        (data pred_mask) (data gt_mask) c /\
      true_positive sp sg c + false_negative sp sg c
      = labelled_count (ignore_index self)
                       (data pred_mask) (data gt_mask) c /\
      exists i,
        nth_error (classes sp sg) i = Some c /\
        (predicted_count (ignore_index self)
                         (data pred_mask) (data gt_mask) c = 0 ->
         nth_error (precision_per_class out) i = Some (Finite 0)) /\
        (labelled_count (ignore_index self)
                        (data pred_mask) (data gt_mask) c = 0 ->
         nth_error (recall_per_class out) i = Some (Finite 0)).
Proof.
  intros E Wp Wg.
  destruct (selected_arrays self _ _ E Wp Wg)
    as (sp & sg & Hsp & Hsg & Hout & _ & Ls & Hp & Hg).
  exists (metrics_of_selected sp sg), sp, sg.
  do 3 (split; [assumption|]).
  assert (Hentries : forall i c,
             nth_error (classes sp sg) i = Some c ->
             (true_positive sp sg c + false_positive sp sg c = 0 ->
              nth_error (precision_per_class (metrics_of_selected sp sg)) i
              = Some (Finite 0)) /\
             (true_positive sp sg c + false_negative sp sg c = 0 ->
              nth_error (recall_per_class (metrics_of_selected sp sg)) i
              = Some (Finite 0))).
  { intros i c Hi. unfold metrics_of_selected; simpl.
    rewrite class_loop_eq; simpl. rewrite !nth_error_map, Hi; simpl.
    unfold class_precision, class_recall.
    split; intros ->; reflexivity. }
  split; [exact Hentries|].
  intros c Hc.
  destruct (counts_of_class (ignore_index self)
                            (data pred_mask) (data gt_mask) c)
    as (Hpc & Hlc).
  rewrite <- Hp, <- Hg in Hpc, Hlc.
  do 2 (split; [assumption|]).
  assert (Hin : In c (classes sp sg)).
  { rewrite Hp, Hg. now apply classes_are_evaluated_values. }
  destruct (in_nth_error _ c Hin) as (i & Hi).
  exists i. split; [exact Hi|].
  destruct (Hentries i c Hi) as (H1 & H2).
  rewrite <- Hpc, <- Hlc. now split.
Qed.

Lemma zero_denominator_gives_zero_witness :
  exists out,
    metrics_of_class_mask default_module one_sided_pred one_sided_gt
    = Some out /\
    class_universe default_module one_sided_pred one_sided_gt
    = Some [0; 1; 2] /\
    predicted_count (ignore_index default_module)
                    (data one_sided_pred) (data one_sided_gt) 2 = 0 /\
    nth_error (precision_per_class out) 2 = Some (Finite 0) /\
    labelled_count (ignore_index default_module)
                   (data one_sided_pred) (data one_sided_gt) 1 = 0 /\
    nth_error (recall_per_class out) 1 = Some (Finite 0).
Proof.
  destruct (zero_denominator_gives_zero
              default_module one_sided_pred one_sided_gt
              eq_refl eq_refl eq_refl)
    as (out & sp & sg & Hout & Hsp & Hsg & _ & Hc).
  injection Hsp as <-. injection Hsg as <-.
  exists out. split; [exact Hout|]. split; [reflexivity|].
  split; [reflexivity|]. split.
  - destruct (Hc 2) as (_ & _ & i & Hi & Hprec & _); [simpl; auto 10|].
    destruct i as [|[|[|i]]]; try discriminate Hi.
    + apply Hprec. reflexivity.
    + destruct i; discriminate Hi.
  - split; [reflexivity|].
    destruct (Hc 1) as (_ & _ & i & Hi & _ & Hrec); [simpl; auto 10|].
    destruct i as [|[|[|i]]]; try discriminate Hi.
    + apply Hrec. reflexivity.
    + destruct i; discriminate Hi.
Defined.

(* ------------------------------------------------------------------ *)
(** ** The no-data masking against equality of floats *)

Lemma eq_float_equal x y : np.eq_float x y = true <-> equal_floats x y.
Proof.
  split.
  - destruct x as [a| | |], y as [b| | |]; simpl; try discriminate;
      intros H; try constructor.
    now apply Qeq_bool_iff.
  - intros [a b H| |]; simpl; try reflexivity. now apply Qeq_bool_iff.
Qed.

(** C8: for a loaded tile of shape [(C, H, W)] and a stitched prediction
    of shape [(H, W)], the written prediction has shape [(H, W)]; it is
    [nan] at every pixel at which the value of some channel of the tile
    is equal to the no-data value, and it is the stitched prediction at
    every pixel at which no channel is. *)
Theorem no_data_pixels_are_nan
        no_data_value hls_tile prediction C H W :
  shape hls_tile = [C; H; W] ->
  shape prediction = [H; W] ->
  well_shaped prediction ->
  exists out,
    written_prediction no_data_value hls_tile prediction = Some out /\
    shape out = [H; W] /\
    well_shaped out /\
    forall r c,
      (r < H)%nat -> (c < W)%nat ->
      ((exists ch v, (ch < C)%nat /\ at3 hls_tile H W ch r c = Some v /\
                     equal_floats v no_data_value) ->
       at2 out W r c = Some NaN) /\
      ((forall ch v, (ch < C)%nat -> at3 hls_tile H W ch r c = Some v ->
                     ~ equal_floats v no_data_value) ->
       at2 out W r c = at2 prediction W r c /\
       at2 prediction W r c <> None).
Proof.
  intros Ht Hp Wp.
  rewrite (written_prediction_eq no_data_value _ _ C H W Ht Hp).
  eexists. split; [reflexivity|]. split; [reflexivity|]. split.
  { unfold well_shaped; cbn [shape data].
    rewrite map2_length; rewrite length_map, length_seq;
      unfold well_shaped in Wp; rewrite ?Wp, ?Hp; simpl; lia. }
  intros r c Hr Hc.
  destruct (written_pixel no_data_value hls_tile prediction C H W
                          Hp Wp r c Hr Hc) as (v & Hv & Hout).
  unfold at2 at 1 2; simpl data. rewrite Hout, Hv. split.
  - intros (ch & x & Hch & Hx & Heq).
    assert (Hnd : no_data_at no_data_value hls_tile C H W (r * W + c) = true).
    { apply no_data_at_true. exists ch, x. repeat split; auto.
      now apply eq_float_equal. }
    now rewrite Hnd.
  - intros Hall. split; [|discriminate].
    destruct (no_data_at no_data_value hls_tile C H W (r * W + c)) eqn:Hnd;
      [|reflexivity].
    apply no_data_at_true in Hnd. destruct Hnd as (ch & x & Hch & Hx & Heq).
    apply eq_float_equal in Heq. now destruct (Hall ch x Hch Hx).
Qed.

Lemma no_data_pixels_are_nan_witness :
  exists out,
    written_prediction example_no_data example_tile example_prediction
    = Some out /\
    shape out = [1; 2]%nat /\
    at3 example_tile 1 2 0 0 1 = Some (Finite (-9999)) /\
    at2 out 2 0 1 = Some NaN /\
    at2 out 2 0 0 = Some (Finite 0).
Proof.
  destruct (no_data_pixels_are_nan
              example_no_data example_tile example_prediction 2 1 2
              eq_refl eq_refl eq_refl)
    as (out & Hout & Hshape & _ & Hpix).
  exists out. split; [exact Hout|]. split; [exact Hshape|].
  split; [reflexivity|]. split.
  - destruct (Hpix 0%nat 1%nat) as (Hmask & _); [lia | lia|].
    apply Hmask. exists 0%nat, (Finite (-9999)).
    split; [lia|]. split; [reflexivity|]. constructor. reflexivity.
  - destruct (Hpix 0%nat 0%nat) as (_ & Hkeep); [lia | lia|].
    destruct Hkeep as (Hsame & _); [|exact Hsame].
    intros ch v Hch Hv Heq.
    destruct ch as [|[|ch]]; [| |lia].
    + injection Hv as <-. inversion Heq as [a b Hab| |]; subst.
      discriminate Hab.
    + injection Hv as <-. inversion Heq as [a b Hab| |]; subst.
      discriminate Hab.
Defined.
